(** * Lie-group differential calculus of basalt-headers (sophus_utils.hpp)

    A shallow embedding of [include/basalt/utils/sophus_utils.hpp].  The
    header is a family of C++ templates over a [Scalar] type; the embedding
    instantiates [Scalar] with the real numbers, so that the formulas are
    read with exact arithmetic: rounding, overflow and the special values
    of floating point are not part of that model.  Fixed-size Eigen vectors
    and matrices are records of scalars, the out-parameter [J_phi] becomes
    the returned matrix, and every scalar division the code performs is
    recorded together with its denominator.  What depends on overflow and
    on NaN is stated on a second embedding of the Jacobians, with
    [Scalar = double] as the binary64 numbers. *)

From Stdlib Require Import Reals Lra Psatz RNsatz List Bool Arith.
From Stdlib Require Floats.
Import ListNotations.
Local Open Scope R_scope.

(** ** Fixed-size vectors and matrices (Eigen) *)

Record Vec3 : Type := mkVec3 { vx : R; vy : R; vz : R }.

Record Mat3 : Type := mkMat3 {
  m00 : R; m01 : R; m02 : R;
  m10 : R; m11 : R; m12 : R;
  m20 : R; m21 : R; m22 : R }.

Record Vec6 : Type := mkVec6 {
  v0 : R; v1 : R; v2 : R; v3 : R; v4 : R; v5 : R }.

(** A 6x6 matrix is indexed by row and column; only the indices below 6
    are meaningful. *)
Definition Mat6 : Type := nat -> nat -> R.

Module Eigen.

(** [phi.squaredNorm()] *)
Definition squaredNorm (v : Vec3) : R :=
  vx v * vx v + vy v * vy v + vz v * vz v.

(** [phi.norm()], the Euclidean norm the specification writes with double bars. *)
Definition norm (v : Vec3) : R := sqrt (squaredNorm v).

(** [s * v] for a vector *)
Definition vscale (s : R) (v : Vec3) : Vec3 :=
  mkVec3 (s * vx v) (s * vy v) (s * vz v).

(** [Matrix3::Identity()], what [J.setIdentity()] stores *)
Definition Identity : Mat3 := mkMat3 1 0 0 0 1 0 0 0 1.

Definition Mat3_Zero : Mat3 := mkMat3 0 0 0 0 0 0 0 0 0.

(** [A + B] *)
Definition madd (A B : Mat3) : Mat3 :=
  mkMat3 (m00 A + m00 B) (m01 A + m01 B) (m02 A + m02 B)
         (m10 A + m10 B) (m11 A + m11 B) (m12 A + m12 B)
         (m20 A + m20 B) (m21 A + m21 B) (m22 A + m22 B).

(** [A - B] *)
Definition msub (A B : Mat3) : Mat3 :=
  mkMat3 (m00 A - m00 B) (m01 A - m01 B) (m02 A - m02 B)
         (m10 A - m10 B) (m11 A - m11 B) (m12 A - m12 B)
         (m20 A - m20 B) (m21 A - m21 B) (m22 A - m22 B).

(** [A * B], the matrix product *)
Definition mmul (A B : Mat3) : Mat3 :=
  mkMat3 (m00 A * m00 B + m01 A * m10 B + m02 A * m20 B)
         (m00 A * m01 B + m01 A * m11 B + m02 A * m21 B)
         (m00 A * m02 B + m01 A * m12 B + m02 A * m22 B)
         (m10 A * m00 B + m11 A * m10 B + m12 A * m20 B)
         (m10 A * m01 B + m11 A * m11 B + m12 A * m21 B)
         (m10 A * m02 B + m11 A * m12 B + m12 A * m22 B)
         (m20 A * m00 B + m21 A * m10 B + m22 A * m20 B)
         (m20 A * m01 B + m21 A * m11 B + m22 A * m21 B)
         (m20 A * m02 B + m21 A * m12 B + m22 A * m22 B).

(** [A * s], a matrix times a scalar *)
Definition mscale (A : Mat3) (s : R) : Mat3 :=
  mkMat3 (m00 A * s) (m01 A * s) (m02 A * s)
         (m10 A * s) (m11 A * s) (m12 A * s)
         (m20 A * s) (m21 A * s) (m22 A * s).

(** [A / s], every coefficient divided by the scalar *)
Definition mquot (A : Mat3) (s : R) : Mat3 :=
  mkMat3 (m00 A / s) (m01 A / s) (m02 A / s)
         (m10 A / s) (m11 A / s) (m12 A / s)
         (m20 A / s) (m21 A / s) (m22 A / s).

(** Coefficient access [A(i, j)] of a 3x3 matrix. *)
Definition coeff3 (A : Mat3) (i j : nat) : R :=
  match i, j with
  | 0%nat, 0%nat => m00 A | 0%nat, 1%nat => m01 A | 0%nat, 2%nat => m02 A
  | 1%nat, 0%nat => m10 A | 1%nat, 1%nat => m11 A | 1%nat, 2%nat => m12 A
  | 2%nat, 0%nat => m20 A | 2%nat, 1%nat => m21 A | 2%nat, 2%nat => m22 A
  | _, _ => 0
  end.

(** [v.head<3>()] and [v.tail<3>()] of a 6-vector, as values and as
    assignment targets. *)
Definition head3 (v : Vec6) : Vec3 := mkVec3 (v0 v) (v1 v) (v2 v).
Definition tail3 (v : Vec6) : Vec3 := mkVec3 (v3 v) (v4 v) (v5 v).

Definition set_head3 (v : Vec6) (h : Vec3) : Vec6 :=
  mkVec6 (vx h) (vy h) (vz h) (v3 v) (v4 v) (v5 v).
Definition set_tail3 (v : Vec6) (t : Vec3) : Vec6 :=
  mkVec6 (v0 v) (v1 v) (v2 v) (vx t) (vy t) (vz t).

(** [J.setZero()] on a 6x6 matrix *)
Definition setZero6 : Mat6 := fun _ _ => 0.

(** The four 3x3 corner blocks of a 6x6 matrix read as values, among them
    [J.topLeftCorner<3, 3>()] and [J.bottomRightCorner<3, 3>()]. *)
Definition topLeftCorner33 (J : Mat6) : Mat3 :=
  (mkMat3 (J 0 0) (J 0 1) (J 0 2)
          (J 1 0) (J 1 1) (J 1 2)
          (J 2 0) (J 2 1) (J 2 2))%nat.

Definition bottomRightCorner33 (J : Mat6) : Mat3 :=
  (mkMat3 (J 3 3) (J 3 4) (J 3 5)
          (J 4 3) (J 4 4) (J 4 5)
          (J 5 3) (J 5 4) (J 5 5))%nat.

Definition topRightCorner33 (J : Mat6) : Mat3 :=
  (mkMat3 (J 0 3) (J 0 4) (J 0 5)
          (J 1 3) (J 1 4) (J 1 5)
          (J 2 3) (J 2 4) (J 2 5))%nat.

Definition bottomLeftCorner33 (J : Mat6) : Mat3 :=
  (mkMat3 (J 3 0) (J 3 1) (J 3 2)
          (J 4 0) (J 4 1) (J 4 2)
          (J 5 0) (J 5 1) (J 5 2))%nat.

(** Assignment to the two corner blocks: the coefficients of the block
    are replaced, all others are kept. *)
Definition set_topLeftCorner33 (J : Mat6) (B : Mat3) : Mat6 :=
  fun i j =>
    if ((i <? 3) && (j <? 3))%nat then coeff3 B i j else J i j.

Definition set_bottomRightCorner33 (J : Mat6) (B : Mat3) : Mat6 :=
  fun i j =>
    if ((3 <=? i) && (i <? 6) && (3 <=? j) && (j <? 6))%nat
    then coeff3 B (i - 3) (j - 3) else J i j.

(** [-v], the opposite vector *)
Definition vopp (v : Vec3) : Vec3 := mkVec3 (- vx v) (- vy v) (- vz v).

(** [A.transpose()] *)
Definition transpose (A : Mat3) : Mat3 :=
  mkMat3 (m00 A) (m10 A) (m20 A)
         (m01 A) (m11 A) (m21 A)
         (m02 A) (m12 A) (m22 A).

(** [A * v], a matrix applied to a vector *)
Definition mulvec (A : Mat3) (v : Vec3) : Vec3 :=
  mkVec3 (m00 A * vx v + m01 A * vy v + m02 A * vz v)
         (m10 A * vx v + m11 A * vy v + m12 A * vz v)
         (m20 A * vx v + m21 A * vy v + m22 A * vz v).

(** [A.determinant()] *)
Definition determinant (A : Mat3) : R :=
  m00 A * (m11 A * m22 A - m12 A * m21 A)
  - m01 A * (m10 A * m22 A - m12 A * m20 A)
  + m02 A * (m10 A * m21 A - m11 A * m20 A).

(** [A * B] for 6x6 matrices *)
Definition mmul6 (A B : Mat6) : Mat6 :=
  fun i j =>
    A i 0%nat * B 0%nat j + A i 1%nat * B 1%nat j + A i 2%nat * B 2%nat j
    + A i 3%nat * B 3%nat j + A i 4%nat * B 4%nat j + A i 5%nat * B 5%nat j.

End Eigen.
Import Eigen.

Declare Scope mat_scope.
Delimit Scope mat_scope with mat.
Infix "+" := madd : mat_scope.
Infix "-" := msub : mat_scope.
Infix "*" := mmul : mat_scope.
Infix "*s" := mscale (at level 40, left associativity) : mat_scope.
Infix "/s" := mquot (at level 40, left associativity) : mat_scope.
Bind Scope mat_scope with Mat3.

(** ** Divisions and their denominators

    A computation in [Div A] yields its value together with the
    denominators of the scalar divisions it evaluated, in evaluation order.
    A branch that is not taken contributes nothing. *)

Definition Div (A : Type) : Type := (A * list R)%type.

Definition ret {A} (a : A) : Div A := (a, []).

Definition bind {A B} (c : Div A) (k : A -> Div B) : Div B :=
  let (a, ds) := c in
  let (b, ds') := k a in
  (b, ds ++ ds').

Notation "x <- c ;; k" := (bind c (fun x => k))
  (at level 61, c at next level, right associativity).

(** Scalar division [x / y]. *)
Definition sdiv (x y : R) : Div R := (x / y, [y]).

(** Matrix by scalar division [A / y]. *)
Definition mdiv (A : Mat3) (y : R) : Div Mat3 := ((A /s y)%mat, [y]).

Definition value {A} (c : Div A) : A := fst c.
Definition denominators {A} (c : Div A) : list R := snd c.

(** ** The Sophus primitives the header consumes

    [sophus/se3.hpp] is an external library.  What the header uses of it
    is an interface: the threshold [Sophus::Constants<Scalar>::epsilon()],
    the rotation type [SO3<Scalar>] with its exponential, logarithm,
    inverse and matrix form, the rigid transform [SE3<Scalar>] built from
    a rotation and a translation, and the hat operator. *)

Class SophusPrimitives : Type := {
  epsilon : R;
  SO3 : Type;
  SO3_exp : Vec3 -> SO3;
  SO3_log : SO3 -> Vec3;
  SO3_inverse : SO3 -> SO3;
  SO3_matrix : SO3 -> Mat3 }.

(** [SE3<Scalar>(so3, translation)] with its accessors [so3()] and
    [translation()]. *)
Record SE3 `{P : SophusPrimitives} : Type := mkSE3 {
  so3 : SO3;
  translation : Vec3 }.

Arguments mkSE3 {P} so3 translation.

(** Modelled from the spec: [Sophus::SO3<Scalar>::hat], which is not part of
    the sources; the glossary describes it as the map from a 3-vector to
    its skew-symmetric 3x3 matrix representation of the cross product. *)
Definition hat (phi : Vec3) : Mat3 :=
  mkMat3 0 (- vz phi) (vy phi)
         (vz phi) 0 (- vx phi)
         (- vy phi) (vx phi) 0.

(** ** The functions of sophus_utils.hpp *)

Section SophusUtils.

Context `{P : SophusPrimitives}.

(** [logd]: the tangent is declared without a value, then its tail and its
    head are assigned.  [logd_from] starts from the given content of the
    declared vector, [logd] from the zero vector. *)
Definition logd_from (upsilon_omega : Vec6) (se3 : SE3) : Vec6 :=
  let upsilon_omega := set_tail3 upsilon_omega (SO3_log (so3 se3)) in
  let upsilon_omega := set_head3 upsilon_omega (translation se3) in
  upsilon_omega.

Definition logd (se3 : SE3) : Vec6 := logd_from (mkVec6 0 0 0 0 0 0) se3.

(** [expd] *)
Definition expd (upsilon_omega : Vec6) : SE3 :=
  mkSE3 (SO3_exp (tail3 upsilon_omega)) (head3 upsilon_omega).

(** [rightJacobianSO3] *)
Definition rightJacobianSO3 (phi : Vec3) : Div Mat3 :=
  let phi_norm2 := squaredNorm phi in
  let phi_norm := sqrt phi_norm2 in
  let phi_norm3 := phi_norm2 * phi_norm in
  let J := Identity in
  if Rlt_dec epsilon phi_norm then
    let phi_hat := hat phi in
    let phi_hat2 := (phi_hat * phi_hat)%mat in
    t1 <- mdiv (phi_hat *s (1 - cos phi_norm)) phi_norm2 ;;
    let J := (J - t1)%mat in
    t2 <- mdiv (phi_hat2 *s (phi_norm - sin phi_norm)) phi_norm3 ;;
    let J := (J + t2)%mat in
    ret J
  else ret J.

(** [rightJacobianInvSO3] *)
Definition rightJacobianInvSO3 (phi : Vec3) : Div Mat3 :=
  let phi_norm2 := squaredNorm phi in
  let phi_norm := sqrt phi_norm2 in
  let J := Identity in
  if Rlt_dec epsilon phi_norm then
    let phi_hat := hat phi in
    let phi_hat2 := (phi_hat * phi_hat)%mat in
    t1 <- mdiv phi_hat 2 ;;
    let J := (J + t1)%mat in
    a <- sdiv 1 phi_norm2 ;;
    b <- sdiv (1 + cos phi_norm) (2 * phi_norm * sin phi_norm) ;;
    let J := (J + phi_hat2 *s (a - b))%mat in
    ret J
  else ret J.

(** [leftJacobianSO3] *)
Definition leftJacobianSO3 (phi : Vec3) : Div Mat3 :=
  let phi_norm2 := squaredNorm phi in
  let phi_norm := sqrt phi_norm2 in
  let phi_norm3 := phi_norm2 * phi_norm in
  let J := Identity in
  if Rlt_dec epsilon phi_norm then
    let phi_hat := hat phi in
    let phi_hat2 := (phi_hat * phi_hat)%mat in
    t1 <- mdiv (phi_hat *s (1 - cos phi_norm)) phi_norm2 ;;
    let J := (J + t1)%mat in
    t2 <- mdiv (phi_hat2 *s (phi_norm - sin phi_norm)) phi_norm3 ;;
    let J := (J + t2)%mat in
    ret J
  else ret J.

(** [leftJacobianInvSO3] *)
Definition leftJacobianInvSO3 (phi : Vec3) : Div Mat3 :=
  let phi_norm2 := squaredNorm phi in
  let phi_norm := sqrt phi_norm2 in
  let J := Identity in
  if Rlt_dec epsilon phi_norm then
    let phi_hat := hat phi in
    let phi_hat2 := (phi_hat * phi_hat)%mat in
    t1 <- mdiv phi_hat 2 ;;
    let J := (J - t1)%mat in
    a <- sdiv 1 phi_norm2 ;;
    b <- sdiv (1 + cos phi_norm) (2 * phi_norm * sin phi_norm) ;;
    let J := (J + phi_hat2 *s (a - b))%mat in
    ret J
  else ret J.

(** [rightJacobianSE3Decoupled]: the bottom-right block is handed to
    [rightJacobianSO3] as its output, then the top-left block is
    assigned. *)
Definition rightJacobianSE3Decoupled (phi : Vec6) : Div Mat6 :=
  let J := setZero6 in
  let omega := tail3 phi in
  B <- rightJacobianSO3 omega ;;
  let J := set_bottomRightCorner33 J B in
  let J := set_topLeftCorner33 J
             (SO3_matrix (SO3_inverse (SO3_exp omega))) in
  ret J.

(** [rightJacobianInvSE3Decoupled] *)
Definition rightJacobianInvSE3Decoupled (phi : Vec6) : Div Mat6 :=
  let J := setZero6 in
  let omega := tail3 phi in
  B <- rightJacobianInvSO3 omega ;;
  let J := set_bottomRightCorner33 J B in
  let J := set_topLeftCorner33 J (SO3_matrix (SO3_exp omega)) in
  ret J.

(** ** The closed forms of the specification

    These definitions follow the words of the specification: the identity
    when the norm of [phi] is at or below the threshold, and otherwise a
    closed form in the norm of [phi], made of the identity, a term linear
    in [hat phi] and a term in its square.  The left variants differ from
    the right ones in the sign of the linear term only. *)

Definition linear_term (phi : Vec3) : Mat3 :=
  (hat phi *s (1 - cos (norm phi)) /s norm phi ^ 2)%mat.

Definition quadratic_term (phi : Vec3) : Mat3 :=
  ((hat phi * hat phi) *s (norm phi - sin (norm phi)) /s norm phi ^ 3)%mat.

Definition inverse_linear_term (phi : Vec3) : Mat3 :=
  (hat phi /s 2)%mat.

Definition inverse_quadratic_term (phi : Vec3) : Mat3 :=
  ((hat phi * hat phi)
   *s (1 / norm phi ^ 2
       - (1 + cos (norm phi)) / (2 * norm phi * sin (norm phi))))%mat.

Definition closed_form_rightJacobianSO3 (phi : Vec3) : Mat3 :=
  (Identity - linear_term phi + quadratic_term phi)%mat.

Definition closed_form_leftJacobianSO3 (phi : Vec3) : Mat3 :=
  (Identity + linear_term phi + quadratic_term phi)%mat.

Definition closed_form_rightJacobianInvSO3 (phi : Vec3) : Mat3 :=
  (Identity + inverse_linear_term phi + inverse_quadratic_term phi)%mat.

Definition closed_form_leftJacobianInvSO3 (phi : Vec3) : Mat3 :=
  (Identity - inverse_linear_term phi + inverse_quadratic_term phi)%mat.

Definition spec_rightJacobianSO3 (phi : Vec3) : Mat3 :=
  if Rle_dec (norm phi) epsilon then Identity
  else closed_form_rightJacobianSO3 phi.

Definition spec_rightJacobianInvSO3 (phi : Vec3) : Mat3 :=
  if Rle_dec (norm phi) epsilon then Identity
  else closed_form_rightJacobianInvSO3 phi.

Definition spec_leftJacobianSO3 (phi : Vec3) : Mat3 :=
  if Rle_dec (norm phi) epsilon then Identity
  else closed_form_leftJacobianSO3 phi.

Definition spec_leftJacobianInvSO3 (phi : Vec3) : Mat3 :=
  if Rle_dec (norm phi) epsilon then Identity
  else closed_form_leftJacobianInvSO3 phi.

(** The rigid transform denoted by an [SE3] value: its rotation matrix and
    its translation. *)
Definition SE3_rotationMatrix (T : SE3) : Mat3 := SO3_matrix (so3 T).

End SophusUtils.

(** ** A model of the Sophus primitives

    The rotation-group primitive is external and not part of the sources.
    The specification describes a rotation as internally a unit
    quaternion, manipulated through its 3-vector tangent by the SO(3)
    exponential and logarithm.  The model takes these maps with exact
    arithmetic. *)

(** Modelled from the spec: the internal representation of a rotation, a
    quaternion with real part [qw] and imaginary part [qx], [qy], [qz]. *)
Record Quaternion : Type := mkQuaternion { qw : R; qx : R; qy : R; qz : R }.

Module QuaternionSO3.

(** The imaginary part [q.vec()]. *)
Definition vec (q : Quaternion) : Vec3 := mkVec3 (qx q) (qy q) (qz q).

(** Modelled from the spec: the invariant of a rotation, the quaternion
    has unit norm. *)
Definition unit_quaternion (q : Quaternion) : Prop :=
  qw q * qw q + squaredNorm (vec q) = 1.

(** The opposite quaternion, which denotes the same rotation. *)
Definition neg (q : Quaternion) : Quaternion :=
  mkQuaternion (- qw q) (- qx q) (- qy q) (- qz q).

(** Modelled from the spec: the SO(3) exponential, which is not part of
    the sources.  The rotation of angle [theta = norm omega] about
    [omega] is the quaternion with real part [cos (theta / 2)] and
    imaginary part [sin (theta / 2) / theta * omega]; at [theta = 0] the
    factors take their limits. *)
Definition exp (omega : Vec3) : Quaternion :=
  let theta_sq := squaredNorm omega in
  let theta := sqrt theta_sq in
  let half_theta := theta / 2 in
  let imag_factor :=
    if Req_dec_T theta 0 then 1 / 2 else sin half_theta / theta in
  let real_factor :=
    if Req_dec_T theta 0 then 1 else cos half_theta in
  mkQuaternion real_factor
    (imag_factor * vx omega) (imag_factor * vy omega) (imag_factor * vz omega).

(** Modelled from the spec: the SO(3) logarithm, which is not part of the
    sources.  With [n] the norm of the imaginary part and [w] the real
    part, the rotation vector is [2 * atan (n / w) / n] times the
    imaginary part, of norm at most [PI]; the factor takes its limit
    where [n] or [w] is zero. *)
Definition log (q : Quaternion) : Vec3 :=
  let squared_n := squaredNorm (vec q) in
  let w := qw q in
  let two_atan_nbyw_by_n :=
    if Req_dec_T squared_n 0 then 2 / w
    else
      let n := sqrt squared_n in
      if Req_dec_T w 0 then - PI / n
      else 2 * atan (n / w) / n in
  vscale two_atan_nbyw_by_n (vec q).

(** Modelled from the spec: the inverse of a rotation, which is not part of
    the sources; the inverse of a unit quaternion is its conjugate. *)
Definition inverse (q : Quaternion) : Quaternion :=
  mkQuaternion (qw q) (- qx q) (- qy q) (- qz q).

(** Modelled from the spec: the matrix form of a rotation, which is not
    part of the sources; the rotation matrix of a unit quaternion. *)
Definition matrix (q : Quaternion) : Mat3 :=
  let w := qw q in let x := qx q in let y := qy q in let z := qz q in
  mkMat3 (1 - 2 * (y * y + z * z)) (2 * (x * y - w * z)) (2 * (x * z + w * y))
         (2 * (x * y + w * z)) (1 - 2 * (x * x + z * z)) (2 * (y * z - w * x))
         (2 * (x * z - w * y)) (2 * (y * z + w * x)) (1 - 2 * (x * x + y * y)).

End QuaternionSO3.

(** Modelled from the spec: the primitives of the external library, with
    the quaternion model of the rotations and, for the fixed threshold,
    the value of double precision scalars. *)
#[export] Instance SophusModel : SophusPrimitives := {|
  epsilon := 1 / 10 ^ 10;
  SO3 := Quaternion;
  SO3_exp := QuaternionSO3.exp;
  SO3_log := QuaternionSO3.log;
  SO3_inverse := QuaternionSO3.inverse;
  SO3_matrix := QuaternionSO3.matrix |}.

(** ** The Jacobians in double precision

    The same functions with [Scalar = double]: the coefficients are the
    binary64 numbers of IEEE 754 with their rounding, infinities and NaN,
    and the guard [epsilon < phi_norm] is the comparison of doubles, false
    on NaN. *)

Module Binary64.

Import PrimFloat.
Local Open Scope float_scope.

(** Fixed-size vectors and matrices of doubles, with the coefficient-wise
    operations of Eigen. *)
Record Vec3 : Type := mkVec3 { vx : float; vy : float; vz : float }.

Record Mat3 : Type := mkMat3 {
  m00 : float; m01 : float; m02 : float;
  m10 : float; m11 : float; m12 : float;
  m20 : float; m21 : float; m22 : float }.

Record Vec6 : Type := mkVec6 {
  v0 : float; v1 : float; v2 : float; v3 : float; v4 : float; v5 : float }.

Definition Mat6 : Type := nat -> nat -> float.

Definition tail3 (v : Vec6) : Vec3 := mkVec3 (v3 v) (v4 v) (v5 v).

(** [phi.squaredNorm()] *)
Definition squaredNorm (v : Vec3) : float :=
  vx v * vx v + vy v * vy v + vz v * vz v.

Definition Identity : Mat3 := mkMat3 1 0 0 0 1 0 0 0 1.

Definition madd (A B : Mat3) : Mat3 :=
  mkMat3 (m00 A + m00 B) (m01 A + m01 B) (m02 A + m02 B)
         (m10 A + m10 B) (m11 A + m11 B) (m12 A + m12 B)
         (m20 A + m20 B) (m21 A + m21 B) (m22 A + m22 B).

Definition msub (A B : Mat3) : Mat3 :=
  mkMat3 (m00 A - m00 B) (m01 A - m01 B) (m02 A - m02 B)
         (m10 A - m10 B) (m11 A - m11 B) (m12 A - m12 B)
         (m20 A - m20 B) (m21 A - m21 B) (m22 A - m22 B).

Definition mmul (A B : Mat3) : Mat3 :=
  mkMat3 (m00 A * m00 B + m01 A * m10 B + m02 A * m20 B)
         (m00 A * m01 B + m01 A * m11 B + m02 A * m21 B)
         (m00 A * m02 B + m01 A * m12 B + m02 A * m22 B)
         (m10 A * m00 B + m11 A * m10 B + m12 A * m20 B)
         (m10 A * m01 B + m11 A * m11 B + m12 A * m21 B)
         (m10 A * m02 B + m11 A * m12 B + m12 A * m22 B)
         (m20 A * m00 B + m21 A * m10 B + m22 A * m20 B)
         (m20 A * m01 B + m21 A * m11 B + m22 A * m21 B)
         (m20 A * m02 B + m21 A * m12 B + m22 A * m22 B).

Definition mscale (A : Mat3) (s : float) : Mat3 :=
  mkMat3 (m00 A * s) (m01 A * s) (m02 A * s)
         (m10 A * s) (m11 A * s) (m12 A * s)
         (m20 A * s) (m21 A * s) (m22 A * s).

Definition mquot (A : Mat3) (s : float) : Mat3 :=
  mkMat3 (m00 A / s) (m01 A / s) (m02 A / s)
         (m10 A / s) (m11 A / s) (m12 A / s)
         (m20 A / s) (m21 A / s) (m22 A / s).

(** Modelled from the spec: [Sophus::SO3<Scalar>::hat], the skew-symmetric
    matrix of the cross product. *)
Definition hat (phi : Vec3) : Mat3 :=
  mkMat3 0 (- vz phi) (vy phi)
         (vz phi) 0 (- vx phi)
         (- vy phi) (vx phi) 0.

(** A value together with the denominators of the divisions evaluated. *)
Definition Div (A : Type) : Type := (A * list float)%type.
Definition ret {A} (a : A) : Div A := (a, []).
Definition bind {A B} (c : Div A) (k : A -> Div B) : Div B :=
  let (a, ds) := c in
  let (b, ds') := k a in
  (b, ds ++ ds').
Definition sdiv (x y : float) : Div float := (x / y, [y]).
Definition mdiv (A : Mat3) (y : float) : Div Mat3 := (mquot A y, [y]).
Definition value {A} (c : Div A) : A := fst c.
Definition denominators {A} (c : Div A) : list float := snd c.

(** Blocks of a 6x6 matrix. *)
Definition coeff3 (A : Mat3) (i j : nat) : float :=
  match i, j with
  | 0%nat, 0%nat => m00 A | 0%nat, 1%nat => m01 A | 0%nat, 2%nat => m02 A
  | 1%nat, 0%nat => m10 A | 1%nat, 1%nat => m11 A | 1%nat, 2%nat => m12 A
  | 2%nat, 0%nat => m20 A | 2%nat, 1%nat => m21 A | 2%nat, 2%nat => m22 A
  | _, _ => 0
  end.

Definition setZero6 : Mat6 := fun _ _ => 0.

Definition bottomRightCorner33 (J : Mat6) : Mat3 :=
  (mkMat3 (J 3 3) (J 3 4) (J 3 5)
          (J 4 3) (J 4 4) (J 4 5)
          (J 5 3) (J 5 4) (J 5 5))%nat.

Definition set_topLeftCorner33 (J : Mat6) (B : Mat3) : Mat6 :=
  fun i j =>
    if ((i <? 3) && (j <? 3))%nat then coeff3 B i j else J i j.

Definition set_bottomRightCorner33 (J : Mat6) (B : Mat3) : Mat6 :=
  fun i j =>
    if ((3 <=? i) && (i <? 6) && (3 <=? j) && (j <? 6))%nat
    then coeff3 B (i - 3) (j - 3) else J i j.

(** Modelled from the spec: the fixed threshold of the external library
    for double precision scalars, the double nearest to [1e-10]. *)
Definition epsilon : float := 0x1.b7cdfd9d7bdbbp-34.

Section Libm.

(** [std::sin] and [std::cos] on doubles belong to the C library, and the
    matrices of [SO3::exp(omega)] and of its inverse to Sophus; none is
    part of the sources, and each is a parameter. *)
Variables sin cos : float -> float.
Variables SO3_exp_matrix SO3_exp_inverse_matrix : Vec3 -> Mat3.

(** [rightJacobianSO3] *)
Definition rightJacobianSO3 (phi : Vec3) : Div Mat3 :=
  let phi_norm2 := squaredNorm phi in
  let phi_norm := sqrt phi_norm2 in
  let phi_norm3 := phi_norm2 * phi_norm in
  let J := Identity in
  if epsilon <? phi_norm then
    let phi_hat := hat phi in
    let phi_hat2 := mmul phi_hat phi_hat in
    bind (mdiv (mscale phi_hat (1 - cos phi_norm)) phi_norm2) (fun t1 =>
    let J := msub J t1 in
    bind (mdiv (mscale phi_hat2 (phi_norm - sin phi_norm)) phi_norm3)
      (fun t2 =>
    let J := madd J t2 in
    ret J))
  else ret J.

(** [rightJacobianInvSO3] *)
Definition rightJacobianInvSO3 (phi : Vec3) : Div Mat3 :=
  let phi_norm2 := squaredNorm phi in
  let phi_norm := sqrt phi_norm2 in
  let J := Identity in
  if epsilon <? phi_norm then
    let phi_hat := hat phi in
    let phi_hat2 := mmul phi_hat phi_hat in
    bind (mdiv phi_hat 2) (fun t1 =>
    let J := madd J t1 in
    bind (sdiv 1 phi_norm2) (fun a =>
    bind (sdiv (1 + cos phi_norm) (2 * phi_norm * sin phi_norm)) (fun b =>
    let J := madd J (mscale phi_hat2 (a - b)) in
    ret J)))
  else ret J.

(** [leftJacobianSO3] *)
Definition leftJacobianSO3 (phi : Vec3) : Div Mat3 :=
  let phi_norm2 := squaredNorm phi in
  let phi_norm := sqrt phi_norm2 in
  let phi_norm3 := phi_norm2 * phi_norm in
  let J := Identity in
  if epsilon <? phi_norm then
    let phi_hat := hat phi in
    let phi_hat2 := mmul phi_hat phi_hat in
    bind (mdiv (mscale phi_hat (1 - cos phi_norm)) phi_norm2) (fun t1 =>
    let J := madd J t1 in
    bind (mdiv (mscale phi_hat2 (phi_norm - sin phi_norm)) phi_norm3)
      (fun t2 =>
    let J := madd J t2 in
    ret J))
  else ret J.

(** [leftJacobianInvSO3] *)
Definition leftJacobianInvSO3 (phi : Vec3) : Div Mat3 :=
  let phi_norm2 := squaredNorm phi in
  let phi_norm := sqrt phi_norm2 in
  let J := Identity in
  if epsilon <? phi_norm then
    let phi_hat := hat phi in
    let phi_hat2 := mmul phi_hat phi_hat in
    bind (mdiv phi_hat 2) (fun t1 =>
    let J := msub J t1 in
    bind (sdiv 1 phi_norm2) (fun a =>
    bind (sdiv (1 + cos phi_norm) (2 * phi_norm * sin phi_norm)) (fun b =>
    let J := madd J (mscale phi_hat2 (a - b)) in
    ret J)))
  else ret J.

(** [rightJacobianSE3Decoupled] *)
Definition rightJacobianSE3Decoupled (phi : Vec6) : Div Mat6 :=
  let J := setZero6 in
  let omega := tail3 phi in
  bind (rightJacobianSO3 omega) (fun B =>
  let J := set_bottomRightCorner33 J B in
  let J := set_topLeftCorner33 J (SO3_exp_inverse_matrix omega) in
  ret J).

(** [rightJacobianInvSE3Decoupled] *)
Definition rightJacobianInvSE3Decoupled (phi : Vec6) : Div Mat6 :=
  let J := setZero6 in
  let omega := tail3 phi in
  bind (rightJacobianInvSO3 omega) (fun B =>
  let J := set_bottomRightCorner33 J B in
  let J := set_topLeftCorner33 J (SO3_exp_matrix omega) in
  ret J).

End Libm.


End Binary64.


(** * Properties *)

(** ** Norms *)

Lemma squaredNorm_nonneg (v : Vec3) : 0 <= squaredNorm v.
Proof. unfold squaredNorm. nra. Qed.

Lemma norm_nonneg (v : Vec3) : 0 <= norm v.
Proof. apply sqrt_pos. Qed.

Lemma norm_pow2 (v : Vec3) : norm v ^ 2 = squaredNorm v.
Proof.
  unfold norm. simpl. rewrite Rmult_1_r.
  apply sqrt_sqrt, squaredNorm_nonneg.
Qed.

Lemma norm_pow3 (v : Vec3) : norm v ^ 3 = squaredNorm v * norm v.
Proof.
  replace (norm v ^ 3) with (norm v ^ 2 * norm v) by ring.
  now rewrite norm_pow2.
Qed.

Lemma norm_axis_x (a : R) : 0 <= a -> norm (mkVec3 a 0 0) = a.
Proof.
  intros Ha. unfold norm, squaredNorm. simpl.
  replace (a * a + 0 * 0 + 0 * 0) with (a * a) by ring.
  now apply sqrt_square.
Qed.

Lemma squaredNorm_zero_inv (v : Vec3) :
  squaredNorm v = 0 -> v = mkVec3 0 0 0.
Proof.
  destruct v as [x y z]. unfold squaredNorm. simpl. intros H.
  assert (x = 0) by nra. assert (y = 0) by nra. assert (z = 0) by nra.
  now subst.
Qed.

Lemma norm_zero_inv (v : Vec3) : norm v = 0 -> v = mkVec3 0 0 0.
Proof.
  intros H. apply squaredNorm_zero_inv.
  rewrite <- norm_pow2, H. ring.
Qed.

(** ** The four SO(3) Jacobians compute the closed forms *)

(** Equality of two 3x3 matrices, coefficient by coefficient, as an
    identity of the real field where no denominator has to be inspected. *)
Ltac mat3_ring :=
  unfold madd, msub, mmul, mscale, mquot, Identity, hat; simpl;
  f_equal; unfold Rdiv; ring.

Section Jacobians.

Context `{P : SophusPrimitives}.

Lemma rightJacobianSO3_value (phi : Vec3) :
  value (rightJacobianSO3 phi) = spec_rightJacobianSO3 phi.
Proof.
  unfold rightJacobianSO3, spec_rightJacobianSO3.
  fold (norm phi).
  destruct (Rlt_dec epsilon (norm phi)) as [Hlt | Hge];
    destruct (Rle_dec (norm phi) epsilon) as [Hle | Hgt];
    try lra; try reflexivity.
  unfold closed_form_rightJacobianSO3, linear_term, quadratic_term.
  rewrite norm_pow3, norm_pow2.
  cbn [value fst bind mdiv ret]. mat3_ring.
Qed.

Lemma leftJacobianSO3_value (phi : Vec3) :
  value (leftJacobianSO3 phi) = spec_leftJacobianSO3 phi.
Proof.
  unfold leftJacobianSO3, spec_leftJacobianSO3.
  fold (norm phi).
  destruct (Rlt_dec epsilon (norm phi)) as [Hlt | Hge];
    destruct (Rle_dec (norm phi) epsilon) as [Hle | Hgt];
    try lra; try reflexivity.
  unfold closed_form_leftJacobianSO3, linear_term, quadratic_term.
  rewrite norm_pow3, norm_pow2.
  cbn [value fst bind mdiv ret]. mat3_ring.
Qed.

Lemma rightJacobianInvSO3_value (phi : Vec3) :
  value (rightJacobianInvSO3 phi) = spec_rightJacobianInvSO3 phi.
Proof.
  unfold rightJacobianInvSO3, spec_rightJacobianInvSO3.
  fold (norm phi).
  destruct (Rlt_dec epsilon (norm phi)) as [Hlt | Hge];
    destruct (Rle_dec (norm phi) epsilon) as [Hle | Hgt];
    try lra; try reflexivity.
  unfold closed_form_rightJacobianInvSO3,
    inverse_linear_term, inverse_quadratic_term.
  rewrite norm_pow2.
  cbn [value fst bind mdiv sdiv ret]. mat3_ring.
Qed.

Lemma leftJacobianInvSO3_value (phi : Vec3) :
  value (leftJacobianInvSO3 phi) = spec_leftJacobianInvSO3 phi.
Proof.
  unfold leftJacobianInvSO3, spec_leftJacobianInvSO3.
  fold (norm phi).
  destruct (Rlt_dec epsilon (norm phi)) as [Hlt | Hge];
    destruct (Rle_dec (norm phi) epsilon) as [Hle | Hgt];
    try lra; try reflexivity.
  unfold closed_form_leftJacobianInvSO3,
    inverse_linear_term, inverse_quadratic_term.
  rewrite norm_pow2.
  cbn [value fst bind mdiv sdiv ret]. mat3_ring.
Qed.

End Jacobians.

(** The threshold of the model is positive and far below [PI]. *)
Lemma epsilon_model_bounds : 0 <= epsilon (SophusPrimitives := SophusModel) < PI.
Proof.
  cbn [epsilon SophusModel]. pose proof PI2_1. split; lra.
Qed.

(** C1.  For every 3-vector [phi], [rightJacobianSO3] writes the identity
    when the norm of [phi] is at or below the threshold, and otherwise
    [I - hat(phi) (1 - cos n) / n^2 + hat(phi)^2 (n - sin n) / n^3] with [n]
    the norm of [phi].  At [0, 0, 0] the result is the identity, and at
    [PI, 0, 0] it is the closed form of the second branch, the matrix
    with rows [1 0 0], [0 0 2/PI], [0 -2/PI 0]. *)
Theorem rightJacobianSO3_closed_form `{P : SophusPrimitives} :
  0 <= epsilon < PI ->
  (forall phi : Vec3,
     value (rightJacobianSO3 phi) =
     if Rle_dec (norm phi) epsilon then Identity
     else (Identity
           - hat phi *s (1 - cos (norm phi)) /s norm phi ^ 2
           + (hat phi * hat phi) *s (norm phi - sin (norm phi))
             /s norm phi ^ 3)%mat) /\
  value (rightJacobianSO3 (mkVec3 0 0 0)) = Identity /\
  value (rightJacobianSO3 (mkVec3 PI 0 0)) =
    closed_form_rightJacobianSO3 (mkVec3 PI 0 0) /\
  closed_form_rightJacobianSO3 (mkVec3 PI 0 0) =
    mkMat3 1 0 0
           0 0 (2 / PI)
           0 (- 2 / PI) 0.
Proof.
  intros [H0 Hpi].
  assert (Hn0 : norm (mkVec3 0 0 0) = 0) by (apply norm_axis_x; lra).
  assert (Hnpi : norm (mkVec3 PI 0 0) = PI) by (apply norm_axis_x; lra).
  repeat split.
  - intros phi. apply rightJacobianSO3_value.
  - rewrite rightJacobianSO3_value. unfold spec_rightJacobianSO3.
    rewrite Hn0. destruct (Rle_dec 0 epsilon); [reflexivity | lra].
  - rewrite rightJacobianSO3_value. unfold spec_rightJacobianSO3.
    rewrite Hnpi. destruct (Rle_dec PI epsilon); [lra | reflexivity].
  - unfold closed_form_rightJacobianSO3, linear_term, quadratic_term.
    rewrite Hnpi, cos_PI, sin_PI.
    unfold madd, msub, mmul, mscale, Identity, hat; simpl.
    pose proof PI_RGT_0.
    f_equal; field; lra.
Qed.

Lemma rightJacobianSO3_closed_form_witness :
  0 <= epsilon (SophusPrimitives := SophusModel) < PI /\
  value (rightJacobianSO3 (P := SophusModel) (mkVec3 PI 0 0)) =
    mkMat3 1 0 0 0 0 (2 / PI) 0 (- 2 / PI) 0.
Proof.
  split.
  - exact epsilon_model_bounds.
  - destruct (rightJacobianSO3_closed_form (P := SophusModel)
                epsilon_model_bounds) as (_ & _ & Hpi & Hm).
    rewrite Hpi. exact Hm.
Defined.

(** C2.  For every 3-vector [phi], [rightJacobianInvSO3] writes the
    identity when the norm of [phi] is at or below the threshold, and
    otherwise
    [I + hat(phi) / 2 + hat(phi)^2 (1 / n^2 - (1 + cos n) / (2 n sin n))]
    with [n] the norm of [phi]. *)
Theorem rightJacobianInvSO3_closed_form `{P : SophusPrimitives} (phi : Vec3) :
  value (rightJacobianInvSO3 phi) =
  if Rle_dec (norm phi) epsilon then Identity
  else (Identity
        + hat phi /s 2
        + (hat phi * hat phi)
          *s (1 / norm phi ^ 2
              - (1 + cos (norm phi)) / (2 * norm phi * sin (norm phi))))%mat.
Proof. apply rightJacobianInvSO3_value. Qed.

(** C6.  For every 3-vector [phi], [leftJacobianSO3] and
    [leftJacobianInvSO3] are given by the formulas of the right variants
    with the sign of the term linear in [hat phi] flipped, the coefficients
    and the quadratic term being the same; below or at the threshold both
    left variants are the identity. *)
Theorem leftJacobians_flip_linear_term `{P : SophusPrimitives} (phi : Vec3) :
  (value (rightJacobianSO3 phi) =
     if Rle_dec (norm phi) epsilon then Identity
     else (Identity - linear_term phi + quadratic_term phi)%mat) /\
  (value (leftJacobianSO3 phi) =
     if Rle_dec (norm phi) epsilon then Identity
     else (Identity + linear_term phi + quadratic_term phi)%mat) /\
  (value (rightJacobianInvSO3 phi) =
     if Rle_dec (norm phi) epsilon then Identity
     else (Identity + inverse_linear_term phi
           + inverse_quadratic_term phi)%mat) /\
  (value (leftJacobianInvSO3 phi) =
     if Rle_dec (norm phi) epsilon then Identity
     else (Identity - inverse_linear_term phi
           + inverse_quadratic_term phi)%mat).
Proof.
  repeat split.
  - apply rightJacobianSO3_value.
  - apply leftJacobianSO3_value.
  - apply rightJacobianInvSO3_value.
  - apply leftJacobianInvSO3_value.
Qed.

(** C10.  The four SO(3) Jacobians test [epsilon < phi_norm] with a strict
    inequality: when the norm of [phi] equals the threshold, each of them
    returns the identity. *)
Theorem SO3_Jacobians_identity_at_threshold `{P : SophusPrimitives}
    (phi : Vec3) :
  norm phi = epsilon ->
  value (rightJacobianSO3 phi) = Identity /\
  value (rightJacobianInvSO3 phi) = Identity /\
  value (leftJacobianSO3 phi) = Identity /\
  value (leftJacobianInvSO3 phi) = Identity.
Proof.
  unfold norm. intros Hn.
  unfold rightJacobianSO3, rightJacobianInvSO3,
    leftJacobianSO3, leftJacobianInvSO3.
  rewrite Hn.
  destruct (Rlt_dec epsilon epsilon) as [Hlt | _].
  - exfalso. revert Hlt. apply Rlt_irrefl.
  - repeat split.
Qed.

Lemma SO3_Jacobians_identity_at_threshold_witness :
  norm (mkVec3 (1 / 10 ^ 10) 0 0) = epsilon (SophusPrimitives := SophusModel) /\
  value (rightJacobianSO3 (P := SophusModel) (mkVec3 (1 / 10 ^ 10) 0 0))
    = Identity.
Proof.
  assert (H : norm (mkVec3 (1 / 10 ^ 10) 0 0)
              = epsilon (SophusPrimitives := SophusModel)).
  { cbn [epsilon SophusModel]. apply norm_axis_x. lra. }
  split.
  - exact H.
  - exact (proj1 (SO3_Jacobians_identity_at_threshold (P := SophusModel)
                    (mkVec3 (1 / 10 ^ 10) 0 0) H)).
Defined.

(** ** Values and denominators of composed computations *)

Lemma value_bind {A B} (c : Div A) (k : A -> Div B) :
  value (bind c k) = value (k (value c)).
Proof. destruct c as [a ds]. simpl. now destruct (k a). Qed.

Lemma denominators_bind {A B} (c : Div A) (k : A -> Div B) :
  denominators (bind c k) = denominators c ++ denominators (k (value c)).
Proof. destruct c as [a ds]. simpl. now destruct (k a). Qed.

(** ** Block layout of the decoupled SE(3) Jacobians *)

Lemma corners_after_assignments (TL BR : Mat3) :
  let J := set_topLeftCorner33 (set_bottomRightCorner33 setZero6 BR) TL in
  topLeftCorner33 J = TL /\ bottomRightCorner33 J = BR /\
  topRightCorner33 J = Mat3_Zero /\ bottomLeftCorner33 J = Mat3_Zero.
Proof.
  destruct TL, BR. repeat split.
Qed.

(** C7.  For every 6-vector [phi] with [omega] its last three components,
    [rightJacobianSE3Decoupled] writes a 6x6 matrix whose top-left block is
    the matrix of the inverse of the SO(3) exponential of [omega], whose
    bottom-right block is [rightJacobianSO3 omega] and whose off-diagonal
    blocks are zero; [rightJacobianInvSE3Decoupled] writes the same layout
    with the matrix of the exponential itself and
    [rightJacobianInvSO3 omega]. *)
Theorem SE3Decoupled_block_layout `{P : SophusPrimitives} (phi : Vec6) :
  let omega := mkVec3 (v3 phi) (v4 phi) (v5 phi) in
  let J := value (rightJacobianSE3Decoupled phi) in
  let Jinv := value (rightJacobianInvSE3Decoupled phi) in
  (topLeftCorner33 J = SO3_matrix (SO3_inverse (SO3_exp omega)) /\
   bottomRightCorner33 J = value (rightJacobianSO3 omega) /\
   topRightCorner33 J = Mat3_Zero /\
   bottomLeftCorner33 J = Mat3_Zero) /\
  (topLeftCorner33 Jinv = SO3_matrix (SO3_exp omega) /\
   bottomRightCorner33 Jinv = value (rightJacobianInvSO3 omega) /\
   topRightCorner33 Jinv = Mat3_Zero /\
   bottomLeftCorner33 Jinv = Mat3_Zero).
Proof.
  intros omega J Jinv. subst J Jinv.
  unfold rightJacobianSE3Decoupled, rightJacobianInvSE3Decoupled.
  rewrite !value_bind. cbn [value ret fst].
  fold omega. change (tail3 phi) with omega.
  split; apply corners_after_assignments.
Qed.

(** ** Denominators of the divisions *)

Section Denominators.

Context `{P : SophusPrimitives}.

Lemma rightJacobianSO3_denominators (phi : Vec3) :
  denominators (rightJacobianSO3 phi) =
  if Rlt_dec epsilon (norm phi)
  then [squaredNorm phi; squaredNorm phi * norm phi] else [].
Proof.
  unfold rightJacobianSO3. fold (norm phi).
  now destruct (Rlt_dec epsilon (norm phi)).
Qed.

Lemma leftJacobianSO3_denominators (phi : Vec3) :
  denominators (leftJacobianSO3 phi) =
  if Rlt_dec epsilon (norm phi)
  then [squaredNorm phi; squaredNorm phi * norm phi] else [].
Proof.
  unfold leftJacobianSO3. fold (norm phi).
  now destruct (Rlt_dec epsilon (norm phi)).
Qed.

Lemma rightJacobianInvSO3_denominators (phi : Vec3) :
  denominators (rightJacobianInvSO3 phi) =
  if Rlt_dec epsilon (norm phi)
  then [2; squaredNorm phi; 2 * norm phi * sin (norm phi)] else [].
Proof.
  unfold rightJacobianInvSO3. fold (norm phi).
  now destruct (Rlt_dec epsilon (norm phi)).
Qed.

Lemma leftJacobianInvSO3_denominators (phi : Vec3) :
  denominators (leftJacobianInvSO3 phi) =
  if Rlt_dec epsilon (norm phi)
  then [2; squaredNorm phi; 2 * norm phi * sin (norm phi)] else [].
Proof.
  unfold leftJacobianInvSO3. fold (norm phi).
  now destruct (Rlt_dec epsilon (norm phi)).
Qed.

End Denominators.

(** ** The epsilon gate in double precision *)

Module Binary64Facts.

Import PrimFloat SpecFloat FloatOps FloatAxioms.
Import Binary64.
Local Open Scope float_scope.










End Binary64Facts.

(** ** The inverse Jacobians invert the Jacobians *)

(** Products of polynomials of degree two in [hat phi]: the cube of
    [hat phi] is [- squaredNorm phi] times [hat phi], so the product is
    again such a polynomial. *)
Lemma hat_polynomial_product (phi : Vec3) (a b a' b' : R) :
  ((Identity + hat phi *s a + (hat phi * hat phi) *s b)
   * (Identity + hat phi *s a' + (hat phi * hat phi) *s b'))%mat
  = (Identity
     + hat phi *s (a + a' - squaredNorm phi * (a * b' + b * a'))
     + (hat phi * hat phi)
       *s (b + b' + a * a' - squaredNorm phi * (b * b')))%mat.
Proof.
  destruct phi as [x y z].
  unfold madd, mmul, mscale, Identity, hat, squaredNorm; simpl.
  f_equal; ring.
Qed.

Lemma hat_polynomial_trivial (phi : Vec3) :
  (Identity + hat phi *s 0 + (hat phi * hat phi) *s 0)%mat = Identity.
Proof. mat3_ring. Qed.

Lemma msub_as_madd (A B : Mat3) (s : R) :
  (A - B *s s)%mat = (A + B *s (- s))%mat.
Proof. mat3_ring. Qed.

Lemma mquot_as_mscale (A : Mat3) (s : R) : (A /s s)%mat = (A *s (1 / s))%mat.
Proof. mat3_ring. Qed.

Lemma mscale_mquot (A : Mat3) (a d : R) :
  (A *s a /s d)%mat = (A *s (a / d))%mat.
Proof. mat3_ring. Qed.

(** The two coefficient identities, for an angle [n] with nonzero sine. *)
Lemma inverse_coefficient_linear (n : R) :
  n <> 0 -> sin n <> 0 ->
  let a := (1 - cos n) / n ^ 2 in
  let b := (n - sin n) / n ^ 3 in
  let a' := 1 / 2 in
  let b' := 1 / n ^ 2 - (1 + cos n) / (2 * n * sin n) in
  a' + - a - n ^ 2 * (a' * b + b' * - a) = 0.
Proof.
  intros Hn Hs a b a' b'. subst a b a' b'.
  pose proof (sin2_cos2 n) as Hsc. unfold Rsqr in Hsc.
  assert (Hc : cos n * cos n = 1 - sin n * sin n) by lra.
  field_simplify_eq; [| now split].
  ring_simplify. 
  replace (cos n ^ 2) with (1 - sin n ^ 2) by (simpl; lra).
  ring.
Qed.

Lemma inverse_coefficient_quadratic (n : R) :
  n <> 0 -> sin n <> 0 ->
  let a := (1 - cos n) / n ^ 2 in
  let b := (n - sin n) / n ^ 3 in
  let a' := 1 / 2 in
  let b' := 1 / n ^ 2 - (1 + cos n) / (2 * n * sin n) in
  b' + b + a' * - a - n ^ 2 * (b' * b) = 0.
Proof.
  intros Hn Hs a b a' b'. subst a b a' b'.
  field. now split.
Qed.

Section InverseJacobians.

Context `{P : SophusPrimitives}.

Lemma closed_form_right_inverse (phi : Vec3) :
  norm phi <> 0 -> sin (norm phi) <> 0 ->
  (closed_form_rightJacobianInvSO3 phi * closed_form_rightJacobianSO3 phi)%mat
  = Identity.
Proof.
  intros Hn Hs.
  unfold closed_form_rightJacobianInvSO3, closed_form_rightJacobianSO3,
    inverse_linear_term, inverse_quadratic_term, linear_term, quadratic_term.
  rewrite !mscale_mquot, mquot_as_mscale, msub_as_madd,
    hat_polynomial_product, <- norm_pow2.
  rewrite (inverse_coefficient_linear (norm phi) Hn Hs).
  rewrite (inverse_coefficient_quadratic (norm phi) Hn Hs).
  apply hat_polynomial_trivial.
Qed.

Lemma closed_form_left_inverse (phi : Vec3) :
  norm phi <> 0 -> sin (norm phi) <> 0 ->
  (closed_form_leftJacobianInvSO3 phi * closed_form_leftJacobianSO3 phi)%mat
  = Identity.
Proof.
  intros Hn Hs.
  unfold closed_form_leftJacobianInvSO3, closed_form_leftJacobianSO3,
    inverse_linear_term, inverse_quadratic_term, linear_term, quadratic_term.
  rewrite !mscale_mquot, mquot_as_mscale, msub_as_madd,
    hat_polynomial_product, <- norm_pow2.
  pose proof (inverse_coefficient_linear (norm phi) Hn Hs) as E1.
  pose proof (inverse_coefficient_quadratic (norm phi) Hn Hs) as E2.
  cbv zeta in E1, E2.
  match type of E1 with ?e1 = 0 =>
  match type of E2 with ?e2 = 0 =>
  match goal with
  | |- (Identity + hat phi *s ?l + _ *s ?q)%mat = _ =>
      replace l with (- e1) by ring;
      replace q with e2 by ring
  end end end.
  rewrite E1, E2, Ropp_0.
  apply hat_polynomial_trivial.
Qed.

Lemma Identity_mmul_Identity : (Identity * Identity)%mat = Identity.
Proof. mat3_ring. Qed.

End InverseJacobians.

(** Below [PI] the sine of the norm vanishes only at the zero vector,
    which is on the identity branch. *)
Lemma below_PI_invertible `{P : SophusPrimitives} (phi : Vec3) :
  0 <= epsilon -> norm phi < PI ->
  norm phi <= epsilon \/ sin (norm phi) <> 0.
Proof.
  intros H0 Hpi. destruct (Rle_dec (norm phi) epsilon) as [Hle | Hgt].
  - now left.
  - right. assert (0 < sin (norm phi)) by (apply sin_gt_0; lra). lra.
Qed.


Lemma half_PI_axis_below_PI : norm (mkVec3 (PI / 2) 0 0) < PI.
Proof.
  pose proof PI_RGT_0. rewrite norm_axis_x; lra.
Qed.



(** ** The quaternion model: exponential and logarithm *)

Module QuaternionFacts.
Import QuaternionSO3.

Lemma squaredNorm_vscale (k : R) (v : Vec3) :
  squaredNorm (vscale k v) = k * k * squaredNorm v.
Proof. unfold squaredNorm, vscale. simpl. ring. Qed.

Lemma norm_vscale (k : R) (v : Vec3) :
  norm (vscale k v) = Rabs k * norm v.
Proof.
  unfold norm. rewrite squaredNorm_vscale.
  rewrite sqrt_mult_alt by nra.
  f_equal. apply sqrt_Rsqr_abs.
Qed.

Lemma exp_nonzero (omega : Vec3) :
  norm omega <> 0 ->
  qw (exp omega) = cos (norm omega / 2) /\
  vec (exp omega) = vscale (sin (norm omega / 2) / norm omega) omega.
Proof.
  intros Hn. unfold exp. fold (norm omega).
  destruct (Req_dec_T (norm omega) 0) as [H0 | _]; [contradiction |].
  split; reflexivity.
Qed.

Lemma exp_zero (omega : Vec3) :
  norm omega = 0 -> exp omega = mkQuaternion 1 0 0 0.
Proof.
  intros Hn. unfold exp. fold (norm omega).
  destruct (Req_dec_T (norm omega) 0) as [_ | H0]; [| contradiction].
  rewrite (norm_zero_inv omega Hn). simpl. f_equal; ring.
Qed.

Lemma exp_unit (omega : Vec3) : unit_quaternion (exp omega).
Proof.
  unfold unit_quaternion.
  destruct (Req_dec_T (norm omega) 0) as [H0 | Hn].
  - rewrite (exp_zero omega H0). unfold squaredNorm. simpl. ring.
  - destruct (exp_nonzero omega Hn) as [Hw Hv].
    rewrite Hw, Hv, squaredNorm_vscale, <- norm_pow2.
    pose proof (sin2_cos2 (norm omega / 2)) as Hsc. unfold Rsqr in Hsc.
    field_simplify; [| assumption]. lra.
Qed.

Lemma log_exp (omega : Vec3) :
  norm omega < PI -> log (exp omega) = omega.
Proof.
  intros Hpi. pose proof (norm_nonneg omega) as Hge.
  destruct (Req_dec_T (norm omega) 0) as [H0 | Hn].
  - rewrite (exp_zero omega H0). unfold log. simpl.
    rewrite (norm_zero_inv omega H0).
    destruct (Req_dec_T _ 0) as [_ | Hne].
    + unfold vscale. simpl. f_equal; field.
    + exfalso. apply Hne. unfold squaredNorm. simpl. ring.
  - destruct (exp_nonzero omega Hn) as [Hw Hv].
    set (h := norm omega / 2) in *.
    assert (Hh : 0 < h < PI / 2) by (unfold h; lra).
    assert (Hs : 0 < sin h) by (apply sin_gt_0; lra).
    assert (Hc : 0 < cos h) by (apply cos_gt_0; lra).
    assert (Hsn : squaredNorm (vec (exp omega)) = sin h * sin h).
    { rewrite Hv, squaredNorm_vscale, <- norm_pow2. field. assumption. }
    unfold log. rewrite Hsn, Hw, Hv.
    destruct (Req_dec_T (sin h * sin h) 0) as [Hz | _]; [nra |].
    destruct (Req_dec_T (cos h) 0) as [Hz | _]; [lra |].
    rewrite sqrt_square by lra.
    change (sin h / cos h) with (tan h).
    rewrite atan_tan by lra.
    assert (Hcancel : forall x : R,
               2 * h / sin h * (sin h / norm omega * x) = x).
    { intros x. subst h. field. split; lra. }
    destruct omega as [x y z]. unfold vscale. cbn [vx vy vz].
    now rewrite !Hcancel.
Qed.

Lemma quaternion_eq (q : Quaternion) (w : R) (v : Vec3) :
  qw q = w -> vec q = v -> q = mkQuaternion w (vx v) (vy v) (vz v).
Proof. destruct q. unfold vec. simpl. intros <- <-. reflexivity. Qed.

(** Sine and cosine of [atan (n / w)] on the unit circle. *)
Lemma cos_sin_atan_unit (w n : R) :
  w * w + n * n = 1 -> w <> 0 ->
  cos (atan (n / w)) = Rabs w /\ sin (atan (n / w)) = n / w * Rabs w.
Proof.
  intros Hu Hw.
  assert (Hsq : 1 + Rsqr (n / w) = Rsqr (/ Rabs w)).
  { unfold Rsqr. rewrite <- Rinv_mult.
    replace (Rabs w * Rabs w) with (w * w).
    - field_simplify; [| assumption | assumption].
      rewrite <- Hu. field. assumption. 
    - rewrite <- Rabs_mult. symmetry. apply Rabs_pos_eq. nra. }
  assert (Habs : 0 < Rabs w) by now apply Rabs_pos_lt.
  assert (Hsqrt : sqrt (1 + Rsqr (n / w)) = / Rabs w).
  { rewrite Hsq. apply sqrt_Rsqr. left. now apply Rinv_0_lt_compat. }
  rewrite cos_atan, sin_atan, Hsqrt.
  split; field; lra.
Qed.

Lemma atan_pos (x : R) : 0 < x -> 0 < atan x < PI / 2.
Proof.
  intros Hx. split.
  - rewrite <- atan_0. now apply atan_increasing.
  - apply atan_bound.
Qed.

Lemma atan_neg (x : R) : x < 0 -> - PI / 2 < atan x < 0.
Proof.
  intros Hx. split.
  - apply atan_bound.
  - rewrite <- atan_0. now apply atan_increasing.
Qed.

Lemma sqrt_squaredNorm_pos (v : Vec3) :
  squaredNorm v <> 0 -> 0 < sqrt (squaredNorm v).
Proof.
  intros H. apply sqrt_lt_R0. pose proof (squaredNorm_nonneg v). lra.
Qed.

Lemma log_unit_vector_zero (q : Quaternion) :
  squaredNorm (vec q) = 0 -> norm (log q) = 0.
Proof.
  intros H0. unfold log.
  destruct (Req_dec_T (squaredNorm (vec q)) 0) as [_ | Hne]; [| contradiction].
  rewrite norm_vscale. unfold norm. rewrite H0, sqrt_0. ring.
Qed.

(** The exponential of the logarithm, for a positive real part. *)
Lemma exp_log_pos (q : Quaternion) :
  unit_quaternion q -> 0 < qw q -> exp (log q) = q.
Proof.
  intros Hu Hw. unfold unit_quaternion in Hu.
  destruct (Req_dec_T (squaredNorm (vec q)) 0) as [H0 | Hne].
  - rewrite exp_zero by now apply log_unit_vector_zero.
    assert (Hv : vec q = mkVec3 0 0 0) by now apply squaredNorm_zero_inv.
    assert (Hw1 : qw q = 1) by nra.
    now rewrite (quaternion_eq q 1 (mkVec3 0 0 0) Hw1 Hv).
  - pose proof (sqrt_squaredNorm_pos _ Hne) as Hn.
    set (n := sqrt (squaredNorm (vec q))) in *.
    assert (Hnn : n * n = squaredNorm (vec q))
      by (apply sqrt_sqrt, squaredNorm_nonneg).
    assert (Hlog : log q = vscale (2 * atan (n / qw q) / n) (vec q)).
    { unfold log. fold n.
      destruct (Req_dec_T (squaredNorm (vec q)) 0); [contradiction |].
      destruct (Req_dec_T (qw q) 0); [lra | reflexivity]. }
    assert (Hq : 0 < n / qw q) by now apply Rdiv_lt_0_compat.
    pose proof (atan_pos _ Hq) as Hphi.
    destruct (cos_sin_atan_unit (qw q) n) as [Hcos Hsin]; [lra | lra |].
    rewrite Rabs_pos_eq in Hcos, Hsin by lra.
    set (phi := atan (n / qw q)) in *.
    assert (Hnorm : norm (log q) = 2 * phi).
    { rewrite Hlog, norm_vscale. fold (norm (vec q)). unfold norm. fold n.
      rewrite Rabs_pos_eq.
      - field. lra.
      - apply Rlt_le, Rdiv_lt_0_compat; lra. }
    destruct (exp_nonzero (log q)) as [Ew Ev]; [lra |].
    rewrite Hnorm in Ew, Ev.
    replace (2 * phi / 2) with phi in Ew, Ev by field.
    rewrite Hcos in Ew. rewrite Hsin in Ev.
    rewrite (quaternion_eq _ _ _ Ew Ev), Hlog.
    destruct q as [w x y z]. unfold vec, vscale.
    cbn [qw qx qy qz vx vy vz] in *.
    f_equal; field; repeat split; lra.
Qed.

(** The exponential of the logarithm, for a real part that is not
    positive: the opposite quaternion, which is the same rotation. *)
Lemma exp_log_nonpos (q : Quaternion) :
  unit_quaternion q -> qw q <= 0 -> exp (log q) = neg q.
Proof.
  intros Hu Hw. unfold unit_quaternion in Hu.
  destruct (Req_dec_T (squaredNorm (vec q)) 0) as [H0 | Hne].
  - rewrite exp_zero by now apply log_unit_vector_zero.
    assert (Hv : vec q = mkVec3 0 0 0) by now apply squaredNorm_zero_inv.
    assert (Hw1 : qw q = -1) by nra.
    rewrite (quaternion_eq q (-1) (mkVec3 0 0 0) Hw1 Hv).
    unfold neg. simpl. f_equal; ring.
  - pose proof (sqrt_squaredNorm_pos _ Hne) as Hn.
    set (n := sqrt (squaredNorm (vec q))) in *.
    assert (Hnn : n * n = squaredNorm (vec q))
      by (apply sqrt_sqrt, squaredNorm_nonneg).
    destruct (Req_dec_T (qw q) 0) as [Hw0 | Hwn].
    + (* rotation by the angle PI *)
      assert (Hn1 : n = 1) by nra.
      assert (Hlog : log q = vscale (- PI / n) (vec q)).
      { unfold log. fold n.
        destruct (Req_dec_T (squaredNorm (vec q)) 0); [contradiction |].
        destruct (Req_dec_T (qw q) 0); [reflexivity | contradiction]. }
      pose proof PI_RGT_0 as Hpi.
      assert (Hnorm : norm (log q) = PI).
      { rewrite Hlog, norm_vscale. fold (norm (vec q)). unfold norm. fold n.
        rewrite Hn1, Rabs_left; [field | lra]. }
      destruct (exp_nonzero (log q)) as [Ew Ev]; [lra |].
      rewrite Hnorm in Ew, Ev. rewrite cos_PI2 in Ew.
      rewrite sin_PI2 in Ev.
      rewrite (quaternion_eq _ _ _ Ew Ev), Hlog, Hn1.
      destruct q as [w x y z]. unfold vec, vscale, neg.
      cbn [qw qx qy qz vx vy vz] in *.
      f_equal; try (field; lra). lra.
    + assert (Hlog : log q = vscale (2 * atan (n / qw q) / n) (vec q)).
      { unfold log. fold n.
        destruct (Req_dec_T (squaredNorm (vec q)) 0); [contradiction |].
        destruct (Req_dec_T (qw q) 0); [contradiction | reflexivity]. }
      assert (Hq : n / qw q < 0).
      { unfold Rdiv. apply Rmult_pos_neg; [lra |].
        apply Rinv_lt_0_compat. lra. }
      pose proof (atan_neg _ Hq) as Hphi.
      destruct (cos_sin_atan_unit (qw q) n) as [Hcos Hsin]; [lra | lra |].
      rewrite Rabs_left in Hcos, Hsin by lra.
      set (phi := atan (n / qw q)) in *.
      assert (Hnorm : norm (log q) = 2 * - phi).
      { rewrite Hlog, norm_vscale. fold (norm (vec q)). unfold norm. fold n.
        rewrite Rabs_left.
        - field. lra.
        - unfold Rdiv. apply Rmult_neg_pos; [lra |].
          apply Rinv_0_lt_compat. lra. }
      destruct (exp_nonzero (log q)) as [Ew Ev]; [lra |].
      rewrite Hnorm in Ew, Ev.
      replace (2 * - phi / 2) with (- phi) in Ew, Ev by field.
      rewrite cos_neg, Hcos in Ew. rewrite sin_neg, Hsin in Ev.
      rewrite (quaternion_eq _ _ _ Ew Ev), Hlog.
      destruct q as [w x y z]. unfold vec, vscale, neg.
      cbn [qw qx qy qz vx vy vz] in *.
      f_equal; field; repeat split; lra.
Qed.

Lemma matrix_neg (q : Quaternion) : matrix (neg q) = matrix q.
Proof. unfold matrix, neg. simpl. f_equal; ring. Qed.

(** The matrix of the exponential is given by the formula of Rodrigues:
    the model is the exponential of [hat omega]. *)
Lemma matrix_exp_Rodrigues (omega : Vec3) :
  norm omega <> 0 ->
  matrix (exp omega) =
  (Identity + hat omega *s (sin (norm omega) / norm omega)
   + (hat omega * hat omega)
     *s ((1 - cos (norm omega)) / norm omega ^ 2))%mat.
Proof.
  intros Hn.
  destruct (exp_nonzero omega Hn) as [Ew Ev].
  rewrite (quaternion_eq _ _ _ Ew Ev).
  assert (Hs : sin (norm omega)
               = 2 * sin (norm omega / 2) * cos (norm omega / 2)).
  { rewrite <- sin_2a. f_equal. field. }
  assert (Hc : cos (norm omega)
               = 1 - 2 * sin (norm omega / 2) * sin (norm omega / 2)).
  { rewrite <- cos_2a_sin. f_equal. field. }
  rewrite Hs, Hc.
  pose proof (norm_pow2 omega) as Hsq.
  clear Ew Ev Hs Hc.
  set (n := norm omega) in *.
  set (s := sin (n / 2)). set (c := cos (n / 2)).
  clearbody s c n.
  destruct omega as [x y z]. unfold squaredNorm in Hsq. simpl in Hsq.
  unfold matrix, vscale, madd, mmul, mscale, Identity, hat.
  cbn [qw qx qy qz vx vy vz m00 m01 m02 m10 m11 m12 m20 m21 m22].
  f_equal; field_simplify_eq; try assumption; nra.
Qed.

End QuaternionFacts.

(** ** The decoupled logarithm and exponential *)

Section Decoupled.

Context `{P : SophusPrimitives}.

(** The content of the declared tangent before the two assignments does
    not matter. *)
Lemma logd_from_any (u : Vec6) (se3 : SE3) : logd_from u se3 = logd se3.
Proof. reflexivity. Qed.

Lemma logd_components (se3 : SE3) :
  head3 (logd se3) = translation se3 /\ tail3 (logd se3) = SO3_log (so3 se3).
Proof.
  unfold logd, logd_from, head3, tail3, set_head3, set_tail3. simpl.
  split.
  - now destruct (translation se3).
  - now destruct (SO3_log (so3 se3)).
Qed.

Lemma logd_expd_components (v : Vec6) :
  head3 (logd (expd v)) = head3 v /\
  tail3 (logd (expd v)) = SO3_log (SO3_exp (tail3 v)).
Proof. apply logd_components. Qed.

Lemma Vec6_eq (u v : Vec6) : head3 u = head3 v -> tail3 u = tail3 v -> u = v.
Proof.
  destruct u, v. unfold head3, tail3. simpl.
  intros Hh Ht. injection Hh as -> -> ->. injection Ht as -> -> ->.
  reflexivity.
Qed.

Lemma expd_logd_components (T : SE3) :
  so3 (expd (logd T)) = SO3_exp (SO3_log (so3 T)) /\
  translation (expd (logd T)) = translation T.
Proof.
  destruct (logd_components T) as [Hh Ht].
  unfold expd. cbn [so3 translation]. now rewrite Hh, Ht.
Qed.

End Decoupled.

(** C4, as amended.  With the exact exponential and principal logarithm
    of the rotation group, for every 6-vector [v] whose last three
    components have a norm below [PI], [logd (expd v)] is [v]: the first
    three components are the translation and the last three the rotation
    logarithm. *)
Theorem logd_expd_below_PI (v : Vec6) :
  norm (tail3 v) < PI ->
  logd (P := SophusModel) (expd v) = v.
Proof.
  intros Hpi. destruct (logd_expd_components (P := SophusModel) v) as [Hh Ht].
  apply Vec6_eq; [exact Hh |].
  rewrite Ht. cbn [SO3_log SO3_exp SophusModel].
  now apply QuaternionFacts.log_exp.
Qed.

Lemma logd_expd_below_PI_witness :
  norm (tail3 (mkVec6 1 2 3 1 0 0)) < PI /\
  logd (P := SophusModel) (expd (mkVec6 1 2 3 1 0 0)) = mkVec6 1 2 3 1 0 0.
Proof.
  assert (H : norm (tail3 (mkVec6 1 2 3 1 0 0)) < PI).
  { unfold tail3. simpl. rewrite norm_axis_x by lra.
    pose proof PI2_1. lra. }
  split.
  - exact H.
  - exact (logd_expd_below_PI (mkVec6 1 2 3 1 0 0) H).
Defined.

(** C4, as stated, fails: the rotation vector [(2 PI, 0, 0)] is a full
    turn, its exponential is the quaternion [-1], and the logarithm
    returns the zero vector. *)
Lemma logd_expd_full_turn :
  logd (P := SophusModel) (expd (mkVec6 0 0 0 (2 * PI) 0 0))
    = mkVec6 0 0 0 0 0 0 /\
  logd (P := SophusModel) (expd (mkVec6 0 0 0 (2 * PI) 0 0))
    <> mkVec6 0 0 0 (2 * PI) 0 0.
Proof.
  pose proof PI_RGT_0 as Hpos.
  assert (Hn : norm (mkVec3 (2 * PI) 0 0) = 2 * PI)
    by (apply norm_axis_x; lra).
  assert (Hexp : QuaternionSO3.exp (mkVec3 (2 * PI) 0 0)
                 = mkQuaternion (-1) 0 0 0).
  { destruct (QuaternionFacts.exp_nonzero (mkVec3 (2 * PI) 0 0))
      as [Ew Ev]; [lra |].
    rewrite Hn in Ew, Ev.
    replace (2 * PI / 2) with PI in Ew, Ev by field.
    rewrite cos_PI in Ew. rewrite sin_PI in Ev.
    rewrite (QuaternionFacts.quaternion_eq _ _ _ Ew Ev).
    unfold vscale. simpl. f_equal; field; lra. }
  assert (Hlog : QuaternionSO3.log (mkQuaternion (-1) 0 0 0) = mkVec3 0 0 0).
  { unfold QuaternionSO3.log, QuaternionSO3.vec, squaredNorm. simpl.
    destruct (Req_dec_T (0 * 0 + 0 * 0 + 0 * 0) 0) as [_ | Hne].
    - unfold vscale. simpl. f_equal; field.
    - exfalso. apply Hne. ring. }
  assert (Hval : logd (P := SophusModel) (expd (mkVec6 0 0 0 (2 * PI) 0 0))
                 = mkVec6 0 0 0 0 0 0).
  { apply Vec6_eq.
    - reflexivity.
    - destruct (logd_expd_components (P := SophusModel)
                  (mkVec6 0 0 0 (2 * PI) 0 0)) as [_ Ht].
      rewrite Ht. cbn [SO3_log SO3_exp SophusModel].
      unfold tail3. cbn [v3 v4 v5].
      now rewrite Hexp, Hlog. }
  split; [exact Hval |].
  rewrite Hval. intros Heq. apply (f_equal v3) in Heq. simpl in Heq. lra.
Qed.

(** C9.  For every rigid transform [T], a unit quaternion with a
    translation, [expd (logd T)] is the transform [T]: its rotation matrix
    and its translation are those of [T], whatever the angle of the
    rotation.  The stored quaternion is that of [T] or its opposite, which
    is the same rotation. *)
Theorem expd_logd_transform (T : SE3 (P := SophusModel)) :
  QuaternionSO3.unit_quaternion (so3 T) ->
  SE3_rotationMatrix (expd (logd T)) = SE3_rotationMatrix T /\
  translation (expd (logd T)) = translation T /\
  (so3 (expd (logd T)) = so3 T \/
   so3 (expd (logd T)) = QuaternionSO3.neg (so3 T)).
Proof.
  intros Hu. destruct (expd_logd_components T) as [Hr Ht].
  cbn [SO3_log SO3_exp SophusModel] in Hr.
  assert (Hq : so3 (expd (logd T)) = so3 T \/
               so3 (expd (logd T)) = QuaternionSO3.neg (so3 T)).
  { rewrite Hr. destruct (Rlt_le_dec 0 (qw (so3 T))) as [Hpos | Hneg].
    - left. now apply QuaternionFacts.exp_log_pos.
    - right. now apply QuaternionFacts.exp_log_nonpos. }
  repeat apply conj; [| exact Ht | exact Hq].
  unfold SE3_rotationMatrix. cbn [SO3_matrix SophusModel].
  destruct Hq as [-> | ->]; [reflexivity | apply QuaternionFacts.matrix_neg].
Qed.

Lemma expd_logd_transform_witness :
  QuaternionSO3.unit_quaternion (mkQuaternion 0 1 0 0) /\
  SE3_rotationMatrix
    (expd (logd (mkSE3 (P := SophusModel) (mkQuaternion 0 1 0 0)
                   (mkVec3 1 2 3))))
  = mkMat3 1 0 0 0 (-1) 0 0 0 (-1).
Proof.
  assert (Hu : QuaternionSO3.unit_quaternion (mkQuaternion 0 1 0 0)).
  { unfold QuaternionSO3.unit_quaternion, squaredNorm. simpl. ring. }
  split.
  - exact Hu.
  - rewrite (proj1 (expd_logd_transform
                      (mkSE3 (P := SophusModel) (mkQuaternion 0 1 0 0)
                         (mkVec3 1 2 3)) Hu)).
    unfold SE3_rotationMatrix. cbn [SO3_matrix SophusModel so3].
    unfold QuaternionSO3.matrix. cbn [qw qx qy qz]. f_equal; ring.
Defined.

(** * Further properties of the Jacobians and of the decoupled maps *)

(** ** Symmetries of the SO(3) Jacobians *)

Lemma squaredNorm_vopp (phi : Vec3) : squaredNorm (vopp phi) = squaredNorm phi.
Proof. unfold squaredNorm, vopp. simpl. ring. Qed.

Lemma norm_vopp (phi : Vec3) : norm (vopp phi) = norm phi.
Proof. unfold norm. now rewrite squaredNorm_vopp. Qed.

Lemma Div_eq {A} (c d : Div A) :
  value c = value d -> denominators c = denominators d -> c = d.
Proof. destruct c, d. simpl. now intros -> ->. Qed.

(** X1.  For every [phi], [leftJacobianSO3 phi] is [rightJacobianSO3] at
    the opposite vector, and [leftJacobianInvSO3 phi] is
    [rightJacobianInvSO3] at the opposite vector: the same matrix is
    written and the same divisions are performed. *)
Theorem left_Jacobians_are_right_Jacobians_at_opposite `{P : SophusPrimitives}
    (phi : Vec3) :
  leftJacobianSO3 phi = rightJacobianSO3 (vopp phi) /\
  leftJacobianInvSO3 phi = rightJacobianInvSO3 (vopp phi).
Proof.
  split; apply Div_eq.
  - rewrite leftJacobianSO3_value, rightJacobianSO3_value.
    unfold spec_leftJacobianSO3, spec_rightJacobianSO3.
    rewrite norm_vopp. destruct (Rle_dec (norm phi) epsilon); [reflexivity |].
    unfold closed_form_leftJacobianSO3, closed_form_rightJacobianSO3,
      linear_term, quadratic_term.
    rewrite norm_vopp. unfold vopp. mat3_ring.
  - rewrite leftJacobianSO3_denominators, rightJacobianSO3_denominators.
    now rewrite norm_vopp, squaredNorm_vopp.
  - rewrite leftJacobianInvSO3_value, rightJacobianInvSO3_value.
    unfold spec_leftJacobianInvSO3, spec_rightJacobianInvSO3.
    rewrite norm_vopp. destruct (Rle_dec (norm phi) epsilon); [reflexivity |].
    unfold closed_form_leftJacobianInvSO3, closed_form_rightJacobianInvSO3,
      inverse_linear_term, inverse_quadratic_term.
    rewrite norm_vopp. unfold vopp. mat3_ring.
  - rewrite leftJacobianInvSO3_denominators, rightJacobianInvSO3_denominators.
    now rewrite norm_vopp, squaredNorm_vopp.
Qed.

(** X2.  For every [phi], the matrix written by [leftJacobianSO3] is the
    transpose of the one written by [rightJacobianSO3], and likewise for
    the two inverse Jacobians. *)
Theorem left_Jacobians_are_transposes `{P : SophusPrimitives} (phi : Vec3) :
  value (leftJacobianSO3 phi) = transpose (value (rightJacobianSO3 phi)) /\
  value (leftJacobianInvSO3 phi)
    = transpose (value (rightJacobianInvSO3 phi)).
Proof.
  rewrite leftJacobianSO3_value, rightJacobianSO3_value,
    leftJacobianInvSO3_value, rightJacobianInvSO3_value.
  unfold spec_leftJacobianSO3, spec_rightJacobianSO3,
    spec_leftJacobianInvSO3, spec_rightJacobianInvSO3.
  destruct (Rle_dec (norm phi) epsilon); [split; reflexivity |].
  unfold closed_form_leftJacobianSO3, closed_form_rightJacobianSO3,
    closed_form_leftJacobianInvSO3, closed_form_rightJacobianInvSO3,
    linear_term, quadratic_term, inverse_linear_term, inverse_quadratic_term,
    transpose.
  split; mat3_ring.
Qed.

(** X3.  The matrices written by [rightJacobianSO3] and [leftJacobianSO3]
    map the rotation vector [phi] to itself, on both branches and for
    every threshold; with a non-negative threshold, so do the matrices
    written by the two inverse Jacobians for every [phi] whose norm is
    below [PI]. *)
Theorem Jacobians_fix_rotation_vector `{P : SophusPrimitives} (phi : Vec3) :
  mulvec (value (rightJacobianSO3 phi)) phi = phi /\
  mulvec (value (leftJacobianSO3 phi)) phi = phi /\
  (0 <= epsilon -> norm phi < PI ->
   mulvec (value (rightJacobianInvSO3 phi)) phi = phi /\
   mulvec (value (leftJacobianInvSO3 phi)) phi = phi).
Proof.
  assert (Hall :
    mulvec (value (rightJacobianSO3 phi)) phi = phi /\
    mulvec (value (rightJacobianInvSO3 phi)) phi = phi /\
    mulvec (value (leftJacobianSO3 phi)) phi = phi /\
    mulvec (value (leftJacobianInvSO3 phi)) phi = phi);
    [| destruct Hall as (Hr & Hri & Hl & Hli); now repeat split].
  rewrite leftJacobianSO3_value, rightJacobianSO3_value,
    leftJacobianInvSO3_value, rightJacobianInvSO3_value.
  unfold spec_leftJacobianSO3, spec_rightJacobianSO3,
    spec_leftJacobianInvSO3, spec_rightJacobianInvSO3.
  destruct phi as [x y z].
  destruct (Rle_dec _ epsilon) as [Hle | Hgt].
  - unfold mulvec, Identity. simpl. repeat split; f_equal; ring.
  - unfold closed_form_leftJacobianSO3, closed_form_rightJacobianSO3,
      closed_form_leftJacobianInvSO3, closed_form_rightJacobianInvSO3,
      linear_term, quadratic_term, inverse_linear_term,
      inverse_quadratic_term.
    generalize (norm (mkVec3 x y z)). intros t.
    unfold mulvec, madd, msub, mmul, mscale, mquot, Identity, hat. simpl.
    repeat split; f_equal; unfold Rdiv; ring.
Qed.

Lemma Jacobians_fix_rotation_vector_witness :
  0 <= epsilon (SophusPrimitives := SophusModel) /\
  norm (mkVec3 (PI / 2) 0 0) < PI /\
  mulvec (value (rightJacobianInvSO3 (P := SophusModel)
                   (mkVec3 (PI / 2) 0 0))) (mkVec3 (PI / 2) 0 0)
    = mkVec3 (PI / 2) 0 0.
Proof.
  repeat apply conj.
  - exact (proj1 epsilon_model_bounds).
  - exact half_PI_axis_below_PI.
  - exact (proj1 (proj2 (proj2 (Jacobians_fix_rotation_vector
                                  (P := SophusModel) (mkVec3 (PI / 2) 0 0)))
                    (proj1 epsilon_model_bounds) half_PI_axis_below_PI)).
Defined.

(** ** Products in both orders *)

Lemma hat_polynomial_commute (phi : Vec3) (a b a' b' : R) :
  ((Identity + hat phi *s a + (hat phi * hat phi) *s b)
   * (Identity + hat phi *s a' + (hat phi * hat phi) *s b'))%mat
  = ((Identity + hat phi *s a' + (hat phi * hat phi) *s b')
     * (Identity + hat phi *s a + (hat phi * hat phi) *s b))%mat.
Proof.
  rewrite !hat_polynomial_product. f_equal; [f_equal |]; f_equal; ring.
Qed.

Lemma closed_form_as_polynomial (phi : Vec3) :
  closed_form_rightJacobianSO3 phi
    = (Identity + hat phi *s (- ((1 - cos (norm phi)) / norm phi ^ 2))
       + (hat phi * hat phi)
         *s ((norm phi - sin (norm phi)) / norm phi ^ 3))%mat /\
  closed_form_leftJacobianSO3 phi
    = (Identity + hat phi *s ((1 - cos (norm phi)) / norm phi ^ 2)
       + (hat phi * hat phi)
         *s ((norm phi - sin (norm phi)) / norm phi ^ 3))%mat /\
  closed_form_rightJacobianInvSO3 phi
    = (Identity + hat phi *s (1 / 2)
       + (hat phi * hat phi)
         *s (1 / norm phi ^ 2
             - (1 + cos (norm phi)) / (2 * norm phi * sin (norm phi))))%mat /\
  closed_form_leftJacobianInvSO3 phi
    = (Identity + hat phi *s (- (1 / 2))
       + (hat phi * hat phi)
         *s (1 / norm phi ^ 2
             - (1 + cos (norm phi)) / (2 * norm phi * sin (norm phi))))%mat.
Proof.
  unfold closed_form_rightJacobianSO3, closed_form_leftJacobianSO3,
    closed_form_rightJacobianInvSO3, closed_form_leftJacobianInvSO3,
    linear_term, quadratic_term, inverse_linear_term, inverse_quadratic_term.
  repeat split; mat3_ring.
Qed.

(** X4.  With a non-negative threshold and exact arithmetic, for every
    [phi] whose norm is below [PI], the Jacobian times the inverse Jacobian
    is the identity as well, for the right and for the left variant: the
    inverse is two-sided. *)
Theorem Jacobians_invert_on_both_sides `{P : SophusPrimitives} (phi : Vec3) :
  0 <= epsilon ->
  norm phi < PI ->
  (value (rightJacobianSO3 phi) * value (rightJacobianInvSO3 phi))%mat
    = Identity /\
  (value (leftJacobianSO3 phi) * value (leftJacobianInvSO3 phi))%mat
    = Identity.
Proof.
  intros H0 Hpi. pose proof (below_PI_invertible phi H0 Hpi) as Hdom.
  rewrite rightJacobianInvSO3_value, rightJacobianSO3_value,
    leftJacobianInvSO3_value, leftJacobianSO3_value.
  unfold spec_rightJacobianInvSO3, spec_rightJacobianSO3,
    spec_leftJacobianInvSO3, spec_leftJacobianSO3.
  destruct (Rle_dec (norm phi) epsilon) as [Hle | Hgt].
  - split; apply Identity_mmul_Identity.
  - destruct Hdom as [Hle | Hs]; [contradiction |].
    assert (Hn : norm phi <> 0) by lra.
    pose proof (closed_form_right_inverse phi Hn Hs) as Hr.
    pose proof (closed_form_left_inverse phi Hn Hs) as Hl.
    revert Hr Hl.
    destruct (closed_form_as_polynomial phi) as (-> & -> & -> & ->).
    intros Hr Hl. split.
    + now rewrite hat_polynomial_commute.
    + now rewrite hat_polynomial_commute.
Qed.

(** ** Determinants *)

Lemma determinant_hat_polynomial (phi : Vec3) (a b : R) :
  determinant (Identity + hat phi *s a + (hat phi * hat phi) *s b)%mat
  = (1 - b * squaredNorm phi) ^ 2 + a ^ 2 * squaredNorm phi.
Proof.
  destruct phi as [x y z].
  unfold determinant, madd, mmul, mscale, Identity, hat, squaredNorm. simpl.
  ring.
Qed.

Lemma determinant_Identity : determinant Identity = 1.
Proof. unfold determinant, Identity. simpl. ring. Qed.

Lemma determinant_coefficient (n : R) :
  n <> 0 ->
  (1 - (n - sin n) / n ^ 3 * n ^ 2) ^ 2 + ((1 - cos n) / n ^ 2) ^ 2 * n ^ 2
  = 2 * (1 - cos n) / n ^ 2.
Proof.
  intros Hn. pose proof (sin2_cos2 n) as Hsc. unfold Rsqr in Hsc.
  field_simplify_eq; [| assumption].
  replace (sin n ^ 2) with (1 - cos n ^ 2) by (simpl; lra).
  ring.
Qed.

(** X5.  With a non-negative threshold, the determinant of the matrix
    written by [rightJacobianSO3] is 1 when the norm [n] of [phi] is at or
    below the threshold and [2 (1 - cos n) / n^2] otherwise; the matrix of
    [leftJacobianSO3] has the same determinant.  The Jacobian is singular
    exactly when [n] is above the threshold and [cos n = 1]. *)
Theorem determinant_of_Jacobians `{P : SophusPrimitives} (phi : Vec3) :
  0 <= epsilon ->
  determinant (value (rightJacobianSO3 phi))
    = (if Rle_dec (norm phi) epsilon then 1
       else 2 * (1 - cos (norm phi)) / norm phi ^ 2) /\
  determinant (value (leftJacobianSO3 phi))
    = determinant (value (rightJacobianSO3 phi)) /\
  (determinant (value (rightJacobianSO3 phi)) = 0 <->
   epsilon < norm phi /\ cos (norm phi) = 1).
Proof.
  intros H0.
  assert (Hr : determinant (value (rightJacobianSO3 phi))
               = (if Rle_dec (norm phi) epsilon then 1
                  else 2 * (1 - cos (norm phi)) / norm phi ^ 2)).
  { rewrite rightJacobianSO3_value. unfold spec_rightJacobianSO3.
    destruct (Rle_dec (norm phi) epsilon) as [Hle | Hgt].
    - apply determinant_Identity.
    - destruct (closed_form_as_polynomial phi) as (-> & _).
      rewrite determinant_hat_polynomial, <- norm_pow2.
      replace ((- ((1 - cos (norm phi)) / norm phi ^ 2)) ^ 2)
        with (((1 - cos (norm phi)) / norm phi ^ 2) ^ 2) by ring.
      apply determinant_coefficient. lra. }
  assert (Hl : determinant (value (leftJacobianSO3 phi))
               = determinant (value (rightJacobianSO3 phi))).
  { rewrite Hr. rewrite leftJacobianSO3_value. unfold spec_leftJacobianSO3.
    destruct (Rle_dec (norm phi) epsilon) as [Hle | Hgt].
    - apply determinant_Identity.
    - destruct (closed_form_as_polynomial phi) as (_ & -> & _).
      rewrite determinant_hat_polynomial, <- norm_pow2.
      apply determinant_coefficient. lra. }
  split; [exact Hr | split; [exact Hl |]].
  rewrite Hr. destruct (Rle_dec (norm phi) epsilon) as [Hle | Hgt].
  - split; [lra | intros [Hlt _]; lra].
  - assert (Hn : 0 < norm phi) by lra.
    assert (Hn2 : 0 < norm phi ^ 2) by (apply pow_lt; assumption).
    split.
    + intros Hz. split; [lra |].
      assert (Hnum : 2 * (1 - cos (norm phi)) = 0).
      { apply (Rmult_eq_reg_r (/ norm phi ^ 2)).
        - rewrite Rmult_0_l. exact Hz.
        - apply Rinv_neq_0_compat. lra. }
      lra.
    + intros [_ Hc]. rewrite Hc. unfold Rdiv. ring.
Qed.

Lemma Jacobians_invert_on_both_sides_witness :
  0 <= epsilon (SophusPrimitives := SophusModel) /\
  norm (mkVec3 (PI / 2) 0 0) < PI /\
  (value (rightJacobianSO3 (P := SophusModel) (mkVec3 (PI / 2) 0 0))
   * value (rightJacobianInvSO3 (P := SophusModel) (mkVec3 (PI / 2) 0 0)))%mat
  = Identity.
Proof.
  repeat apply conj.
  - exact (proj1 epsilon_model_bounds).
  - exact half_PI_axis_below_PI.
  - exact (proj1 (Jacobians_invert_on_both_sides (P := SophusModel)
                    (mkVec3 (PI / 2) 0 0) (proj1 epsilon_model_bounds)
                    half_PI_axis_below_PI)).
Defined.

Lemma determinant_of_Jacobians_witness :
  0 <= epsilon (SophusPrimitives := SophusModel) /\
  determinant (value (rightJacobianSO3 (P := SophusModel)
                        (mkVec3 (2 * PI) 0 0))) = 0.
Proof.
  pose proof epsilon_model_bounds as [H0 Hpi]. pose proof PI_RGT_0 as Hpos.
  assert (Hn : norm (mkVec3 (2 * PI) 0 0) = 2 * PI)
    by (apply norm_axis_x; lra).
  split.
  - exact H0.
  - apply (proj2 (proj2 (determinant_of_Jacobians (P := SophusModel)
                           (mkVec3 (2 * PI) 0 0) H0))).
    rewrite Hn, cos_2PI. split; [lra | reflexivity].
Defined.

(** ** Left and right Jacobian and the rotation matrix *)

Lemma rotated_coefficient_linear (n : R) :
  n <> 0 ->
  sin n / n + - ((1 - cos n) / n ^ 2)
  - n ^ 2 * (sin n / n * ((n - sin n) / n ^ 3)
             + (1 - cos n) / n ^ 2 * - ((1 - cos n) / n ^ 2))
  = (1 - cos n) / n ^ 2.
Proof.
  intros Hn. pose proof (sin2_cos2 n) as Hsc. unfold Rsqr in Hsc.
  field_simplify_eq; [| assumption].
  replace (sin n ^ 2) with (1 - cos n ^ 2) by (simpl; lra).
  ring.
Qed.

Lemma rotated_coefficient_quadratic (n : R) :
  n <> 0 ->
  (1 - cos n) / n ^ 2 + (n - sin n) / n ^ 3
  + sin n / n * - ((1 - cos n) / n ^ 2)
  - n ^ 2 * ((1 - cos n) / n ^ 2 * ((n - sin n) / n ^ 3))
  = (n - sin n) / n ^ 3.
Proof. intros Hn. field. assumption. Qed.

(** X6.  With a threshold [0 <= epsilon < norm phi] and a rotation
    primitive whose matrix of [exp phi] is given by the formula of
    Rodrigues, the matrix written by [leftJacobianSO3] is the rotation
    matrix of [exp phi] times the one written by [rightJacobianSO3]. *)
Theorem left_Jacobian_is_rotated_right_Jacobian `{P : SophusPrimitives}
    (phi : Vec3) :
  0 <= epsilon < norm phi ->
  SO3_matrix (SO3_exp phi)
    = (Identity + hat phi *s (sin (norm phi) / norm phi)
       + (hat phi * hat phi)
         *s ((1 - cos (norm phi)) / norm phi ^ 2))%mat ->
  value (leftJacobianSO3 phi)
    = (SO3_matrix (SO3_exp phi) * value (rightJacobianSO3 phi))%mat.
Proof.
  intros [H0 Hlt] ->.
  rewrite leftJacobianSO3_value, rightJacobianSO3_value.
  unfold spec_leftJacobianSO3, spec_rightJacobianSO3.
  destruct (Rle_dec (norm phi) epsilon) as [Hle | _]; [lra |].
  destruct (closed_form_as_polynomial phi) as (-> & -> & _).
  rewrite hat_polynomial_product, <- norm_pow2.
  rewrite rotated_coefficient_linear, rotated_coefficient_quadratic by lra.
  reflexivity.
Qed.

(** ** The decoupled SE(3) Jacobians as 6x6 matrices *)

Lemma block_diagonal_product (T1 B1 T2 B2 : Mat3) :
  let J1 := set_topLeftCorner33 (set_bottomRightCorner33 setZero6 B1) T1 in
  let J2 := set_topLeftCorner33 (set_bottomRightCorner33 setZero6 B2) T2 in
  topLeftCorner33 (mmul6 J1 J2) = (T1 * T2)%mat /\
  bottomRightCorner33 (mmul6 J1 J2) = (B1 * B2)%mat /\
  topRightCorner33 (mmul6 J1 J2) = Mat3_Zero /\
  bottomLeftCorner33 (mmul6 J1 J2) = Mat3_Zero.
Proof.
  destruct T1, B1, T2, B2.
  unfold topLeftCorner33, bottomRightCorner33, topRightCorner33,
    bottomLeftCorner33, mmul6, set_topLeftCorner33, set_bottomRightCorner33,
    setZero6, mmul, Mat3_Zero.
  simpl. repeat split; f_equal; ring.
Qed.

(** X7.  With a non-negative threshold and exact arithmetic, a rotation
    part [omega] whose norm is below [PI], and a rotation primitive on
    which the matrix of [exp omega] times the matrix of its inverse is the
    identity, the 6x6 product of the matrix written by
    [rightJacobianInvSE3Decoupled] with the one written by
    [rightJacobianSE3Decoupled] is the identity: its diagonal blocks are the
    3x3 identity and its off-diagonal blocks are zero. *)
Theorem SE3Decoupled_Jacobians_invert `{P : SophusPrimitives} (phi : Vec6) :
  0 <= epsilon ->
  norm (tail3 phi) < PI ->
  (SO3_matrix (SO3_exp (tail3 phi))
   * SO3_matrix (SO3_inverse (SO3_exp (tail3 phi))))%mat = Identity ->
  let M := mmul6 (value (rightJacobianInvSE3Decoupled phi))
                 (value (rightJacobianSE3Decoupled phi)) in
  topLeftCorner33 M = Identity /\
  bottomRightCorner33 M = Identity /\
  topRightCorner33 M = Mat3_Zero /\
  bottomLeftCorner33 M = Mat3_Zero.
Proof.
  intros H0 Hpi Hinv M. subst M.
  pose proof (below_PI_invertible (tail3 phi) H0 Hpi) as Hdom.
  unfold rightJacobianSE3Decoupled, rightJacobianInvSE3Decoupled.
  rewrite !value_bind. cbn [value ret fst].
  destruct (block_diagonal_product
              (SO3_matrix (SO3_exp (tail3 phi)))
              (value (rightJacobianInvSO3 (tail3 phi)))
              (SO3_matrix (SO3_inverse (SO3_exp (tail3 phi))))
              (value (rightJacobianSO3 (tail3 phi))))
    as (Htl & Hbr & Htr & Hbl).
  rewrite Htl, Hbr, Htr, Hbl, Hinv.
  repeat split.
  rewrite rightJacobianInvSO3_value, rightJacobianSO3_value.
  unfold spec_rightJacobianInvSO3, spec_rightJacobianSO3.
  destruct (Rle_dec (norm (tail3 phi)) epsilon) as [Hle | Hgt].
  - apply Identity_mmul_Identity.
  - destruct Hdom as [Hle | Hs]; [contradiction |].
    apply closed_form_right_inverse; [lra | assumption].
Qed.

(** ** Round trips of the decoupled maps, for any rotation primitive *)

Lemma SE3_eq `{P : SophusPrimitives} (S T : SE3) :
  so3 S = so3 T -> translation S = translation T -> S = T.
Proof. destruct S, T. simpl. now intros -> ->. Qed.

(** X8.  For any rotation primitive, [logd (expd v)] is [v] exactly when
    the logarithm of the exponential of the last three components returns
    them, and [expd (logd T)] is [T] exactly when the exponential of the
    logarithm of its rotation returns it: the translation never affects a
    round trip. *)
Theorem decoupled_round_trips_reduce_to_SO3 `{P : SophusPrimitives} :
  (forall v : Vec6,
     logd (expd v) = v <-> SO3_log (SO3_exp (tail3 v)) = tail3 v) /\
  (forall T : SE3,
     expd (logd T) = T <-> SO3_exp (SO3_log (so3 T)) = so3 T).
Proof.
  split.
  - intros v. destruct (logd_expd_components v) as [Hh Ht]. split.
    + intros Heq. rewrite <- Ht. now rewrite Heq.
    + intros Heq. apply Vec6_eq; [exact Hh | now rewrite Ht].
  - intros T. destruct (expd_logd_components T) as [Hr Ht]. split.
    + intros Heq. rewrite <- Hr. now rewrite Heq.
    + intros Heq. apply SE3_eq; [now rewrite Hr | exact Ht].
Qed.

(** In the quaternion model, the matrix of a unit quaternion times the
    matrix of its conjugate is the identity. *)
Lemma matrix_inverse_unit (q : Quaternion) :
  QuaternionSO3.unit_quaternion q ->
  (QuaternionSO3.matrix q * QuaternionSO3.matrix (QuaternionSO3.inverse q))%mat
  = Identity.
Proof.
  destruct q as [w x y z].
  unfold QuaternionSO3.unit_quaternion, QuaternionSO3.vec, squaredNorm.
  cbn [qw qx qy qz vx vy vz]. intros Hu.
  unfold QuaternionSO3.matrix, QuaternionSO3.inverse, mmul, Identity.
  cbn [qw qx qy qz m00 m01 m02 m10 m11 m12 m20 m21 m22].
  f_equal; nsatz.
Qed.

Lemma left_Jacobian_is_rotated_right_Jacobian_witness :
  0 <= epsilon (SophusPrimitives := SophusModel)
    < norm (mkVec3 (PI / 2) 0 0) /\
  value (leftJacobianSO3 (P := SophusModel) (mkVec3 (PI / 2) 0 0))
    = (SO3_matrix (SophusPrimitives := SophusModel)
         (SO3_exp (mkVec3 (PI / 2) 0 0))
       * value (rightJacobianSO3 (P := SophusModel)
                  (mkVec3 (PI / 2) 0 0)))%mat.
Proof.
  pose proof epsilon_model_bounds as [H0 Hpi]. pose proof PI_RGT_0 as Hpos.
  assert (Hn : norm (mkVec3 (PI / 2) 0 0) = PI / 2)
    by (apply norm_axis_x; lra).
  assert (Hb : 0 <= epsilon (SophusPrimitives := SophusModel)
               < norm (mkVec3 (PI / 2) 0 0)).
  { rewrite Hn. cbn [epsilon SophusModel]. pose proof PI2_1. split; lra. }
  split.
  - exact Hb.
  - apply (left_Jacobian_is_rotated_right_Jacobian (P := SophusModel)
             (mkVec3 (PI / 2) 0 0) Hb).
    apply QuaternionFacts.matrix_exp_Rodrigues. lra.
Defined.

Lemma SE3Decoupled_Jacobians_invert_witness :
  0 <= epsilon (SophusPrimitives := SophusModel) /\
  topLeftCorner33
    (mmul6 (value (rightJacobianInvSE3Decoupled (P := SophusModel)
                     (mkVec6 1 2 3 (PI / 2) 0 0)))
           (value (rightJacobianSE3Decoupled (P := SophusModel)
                     (mkVec6 1 2 3 (PI / 2) 0 0)))) = Identity /\
  bottomRightCorner33
    (mmul6 (value (rightJacobianInvSE3Decoupled (P := SophusModel)
                     (mkVec6 1 2 3 (PI / 2) 0 0)))
           (value (rightJacobianSE3Decoupled (P := SophusModel)
                     (mkVec6 1 2 3 (PI / 2) 0 0)))) = Identity.
Proof.
  pose proof epsilon_model_bounds as [H0 Hpi]. pose proof PI_RGT_0 as Hpos.
  assert (Hn : norm (tail3 (mkVec6 1 2 3 (PI / 2) 0 0)) = PI / 2).
  { unfold tail3. cbn [v3 v4 v5]. apply norm_axis_x. lra. }
  assert (Hdom : norm (tail3 (mkVec6 1 2 3 (PI / 2) 0 0)) < PI).
  { rewrite Hn. lra. }
  assert (Hinv : (SO3_matrix (SophusPrimitives := SophusModel)
                    (SO3_exp (tail3 (mkVec6 1 2 3 (PI / 2) 0 0)))
                  * SO3_matrix
                      (SO3_inverse
                         (SO3_exp (tail3 (mkVec6 1 2 3 (PI / 2) 0 0)))))%mat
                 = Identity).
  { apply matrix_inverse_unit, QuaternionFacts.exp_unit. }
  destruct (SE3Decoupled_Jacobians_invert (P := SophusModel)
              (mkVec6 1 2 3 (PI / 2) 0 0) H0 Hdom Hinv) as (Htl & Hbr & _).
  repeat apply conj; [exact H0 | exact Htl | exact Hbr].
Defined.

(** ** Distance of the Jacobians to the identity *)

Lemma sin_sqr_le (x : R) : 0 <= x -> sin x * sin x <= x * x.
Proof.
  intros Hx. destruct (Rle_lt_dec 1 x) as [H1 | H1].
  - pose proof (SIN_bound x). nra.
  - destruct (Req_dec x 0) as [-> | Hne].
    + rewrite sin_0. lra.
    + assert (Hpos : 0 < x) by lra.
      pose proof (sin_lt_x x Hpos).
      assert (0 < sin x) by (apply sin_gt_0; [lra | pose proof PI2_1; lra]).
      nra.
Qed.

Lemma one_minus_cos_bound (n : R) :
  0 <= n -> 0 <= 1 - cos n <= n ^ 2 / 2.
Proof.
  intros Hn. split.
  - pose proof (COS_bound n). lra.
  - replace n with (2 * (n / 2)) at 1 by field.
    rewrite cos_2a_sin.
    pose proof (sin_sqr_le (n / 2)). nra.
Qed.

Lemma x_minus_sin_bound (n : R) :
  0 <= n -> 0 <= n - sin n <= n ^ 3 / 6.
Proof.
  intros Hn. destruct (Req_dec n 0) as [-> | Hne].
  - rewrite sin_0. lra.
  - assert (Hpos : 0 < n) by lra. split.
    + pose proof (sin_lt_x n Hpos). lra.
    + destruct (Rle_lt_dec n PI) as [Hle | Hgt].
      * destruct (sin_bound n 0 Hn Hle) as [Hlb _].
        unfold sin_approx, sin_term in Hlb. simpl in Hlb.
        lra.
      * pose proof PI2_3_2. pose proof (SIN_bound n).
        assert (3 < n) by lra. nra.
Qed.

Lemma coordinate_le_norm (v : Vec3) :
  Rabs (vx v) <= norm v /\ Rabs (vy v) <= norm v /\ Rabs (vz v) <= norm v.
Proof.
  pose proof (norm_nonneg v) as Hn. pose proof (norm_pow2 v) as Hsq.
  unfold squaredNorm in Hsq. simpl in Hsq.
  repeat split; apply Rabs_le; split; nra.
Qed.

Lemma quotient_le (x d k : R) : 0 < d -> x <= k * d -> x / d <= k.
Proof.
  intros Hd Hx. apply (Rmult_le_reg_r d); [assumption |].
  unfold Rdiv. rewrite Rmult_assoc, Rinv_l; lra.
Qed.

Lemma coefficient_near_identity (d h q a b n : R) :
  0 <= n -> Rabs h <= n -> Rabs q <= n ^ 2 ->
  Rabs a <= 1 / 2 -> 0 <= b <= 1 / 6 ->
  Rabs (d + h * a + q * b - d) <= n / 2 + n ^ 2 / 6.
Proof.
  intros Hn Hh Hq Ha Hb.
  replace (d + h * a + q * b - d) with (h * a + q * b) by ring.
  eapply Rle_trans; [apply Rabs_triang |].
  rewrite !Rabs_mult.
  pose proof (Rabs_pos h). pose proof (Rabs_pos q). pose proof (Rabs_pos a).
  rewrite (Rabs_pos_eq b) by lra.
  assert (Rabs h * Rabs a <= n * (1 / 2)) by (apply Rmult_le_compat; lra).
  assert (Rabs q * b <= n ^ 2 * (1 / 6)) by (apply Rmult_le_compat; lra).
  lra.
Qed.

Lemma hat_coefficients_bounded (phi : Vec3) (i j : nat) :
  Rabs (coeff3 (hat phi) i j) <= norm phi /\
  Rabs (coeff3 (hat phi * hat phi)%mat i j) <= norm phi ^ 2.
Proof.
  pose proof (norm_nonneg phi) as Hn. pose proof (norm_pow2 phi) as Hsq.
  destruct (coordinate_le_norm phi) as (Hx & Hy & Hz).
  assert (H0 : Rabs 0 <= norm phi) by (rewrite Rabs_R0; lra).
  assert (H02 : Rabs 0 <= norm phi ^ 2) by (rewrite Rabs_R0; nra).
  rewrite Hsq. destruct phi as [x y z].
  unfold squaredNorm in *. cbn [vx vy vz] in *.
  destruct i as [| [| [| i]]]; destruct j as [| [| [| j]]];
    unfold hat, mmul; cbn [coeff3 m00 m01 m02 m10 m11 m12 m20 m21 m22 vx vy vz];
    (split; [first [assumption | rewrite Rabs_Ropp; assumption]
            | apply Rabs_le; split; nra]).
Qed.

(** X9.  With a non-negative threshold, every coefficient of the matrix
    written by [rightJacobianSO3], and by [leftJacobianSO3], differs from
    the coefficient of the identity by at most [n / 2 + n^2 / 6], with [n]
    the norm of [phi]: the matrices written just above the threshold
    differ from the identity written below it by the order of the
    threshold. *)
Theorem Jacobians_near_identity `{P : SophusPrimitives}
    (phi : Vec3) (i j : nat) :
  0 <= epsilon ->
  Rabs (coeff3 (value (rightJacobianSO3 phi)) i j - coeff3 Identity i j)
    <= norm phi / 2 + norm phi ^ 2 / 6 /\
  Rabs (coeff3 (value (leftJacobianSO3 phi)) i j - coeff3 Identity i j)
    <= norm phi / 2 + norm phi ^ 2 / 6.
Proof.
  intros H0. pose proof (norm_nonneg phi) as Hn.
  rewrite rightJacobianSO3_value, leftJacobianSO3_value.
  unfold spec_rightJacobianSO3, spec_leftJacobianSO3.
  destruct (Rle_dec (norm phi) epsilon) as [Hle | Hgt].
  - unfold Rminus. rewrite Rplus_opp_r, Rabs_R0. split; nra.
  - assert (Hpos : 0 < norm phi) by lra.
    destruct (one_minus_cos_bound (norm phi) Hn) as [Hc0 Hc1].
    destruct (x_minus_sin_bound (norm phi) Hn) as [Hs0 Hs1].
    assert (Hn2 : 0 < norm phi ^ 2) by (apply pow_lt; assumption).
    assert (Hn3 : 0 < norm phi ^ 3) by (apply pow_lt; assumption).
    assert (Ha : 0 <= (1 - cos (norm phi)) / norm phi ^ 2 <= 1 / 2).
    { split.
      - apply Rmult_le_pos; [lra | left; now apply Rinv_0_lt_compat].
      - apply quotient_le; lra. }
    assert (Hb : 0 <= (norm phi - sin (norm phi)) / norm phi ^ 3 <= 1 / 6).
    { split.
      - apply Rmult_le_pos; [lra | left; now apply Rinv_0_lt_compat].
      - apply quotient_le; lra. }
    destruct (hat_coefficients_bounded phi i j) as [Hh Hq].
    destruct (closed_form_as_polynomial phi) as (-> & -> & _).
    assert (Hentry : forall a b : R,
      coeff3 (Identity + hat phi *s a + (hat phi * hat phi) *s b)%mat i j
      = coeff3 Identity i j + coeff3 (hat phi) i j * a
        + coeff3 (hat phi * hat phi)%mat i j * b).
    { intros a b.
      destruct i as [| [| [| i]]]; destruct j as [| [| [| j]]];
        unfold madd, mscale; cbn [coeff3 m00 m01 m02 m10 m11 m12 m20 m21 m22];
        ring. }
    rewrite !Hentry.
    split; apply coefficient_near_identity; try assumption.
    + rewrite Rabs_Ropp, Rabs_pos_eq; lra.
    + rewrite Rabs_pos_eq; lra.
Qed.

Lemma Jacobians_near_identity_witness :
  0 <= epsilon (SophusPrimitives := SophusModel) /\
  Rabs (coeff3 (value (rightJacobianSO3 (P := SophusModel) (mkVec3 1 0 0)))
          1 2 - coeff3 Identity 1 2)
    <= norm (mkVec3 1 0 0) / 2 + norm (mkVec3 1 0 0) ^ 2 / 6.
Proof.
  split.
  - exact (proj1 epsilon_model_bounds).
  - exact (proj1 (Jacobians_near_identity (P := SophusModel)
                    (mkVec3 1 0 0) 1 2 (proj1 epsilon_model_bounds))).
Defined.
